(** * Verification development for the tau-asymmetry analysis scripts

    Shallow embedding of
    - the SILA driver script ([src/unnamed/part_000]): data loading, the SILA
      training call and the subject-level estimation call;
    - the NBS driver script ([src/unnamed/part_001]): stacking of the group
      correlation matrices, the design matrix, the covariates and the
      extraction of the toolbox results;
    - the vendored SILA algorithm and the laterality categorisation, whose
      code is not part of the sources at hand: these are modelled from the
      specification and marked as such.

    Numeric table entries are MATLAB doubles; they are modelled as exact
    rationals [Q], a missing entry (NaN) as [None]. *)

From Stdlib Require Import Ascii String List Bool Arith ZArith Lia QArith Qabs Qminmax Lqa.
From Stdlib Require Import Permutation Sorting.Sorted.
Import ListNotations.
Open Scope Q_scope.

(* ------------------------------------------------------------------------- *)
(** ** Generic helpers: MATLAB tables and matrices *)

(** A table cell: [None] is a missing entry (NaN). *)
Definition cell := option Q.

(** A MATLAB table: variable names and rows of cells, one cell per variable. *)
Record table := mk_table { vars : list string; data : list (list cell) }.

Fixpoint index_of (x : string) (l : list string) : option nat :=
  match l with
  | [] => None
  | y :: l' => if String.eqb x y then Some 0%nat
               else option_map S (index_of x l')
  end.

Fixpoint mapM_option {A B} (f : A -> option B) (l : list A) : option (list B) :=
  match l with
  | [] => Some []
  | x :: l' =>
      match f x with
      | Some y => option_map (cons y) (mapM_option f l')
      | None => None
      end
  end.

(** [t(:, names)]: indexing by variable names; an unknown name is an error. *)
Definition select_vars (t : table) (names : list string) : option table :=
  match mapM_option (fun n => index_of n (vars t)) names with
  | Some idxs =>
      Some (mk_table names (map (fun r => map (fun i => nth i r None) idxs) (data t)))
  | None => None
  end.

(** [t.Properties.VariableNames = names] *)
Definition rename_vars (t : table) (names : list string) : table :=
  mk_table names (data t).

(** [rmmissing(t)]: drop every row with a missing entry. *)
Definition rmmissing (t : table) : table :=
  mk_table (vars t) (filter (fun r => forallb (fun c : cell => if c then true else false) r) (data t)).

(** [ismember(x, l)] on numbers. *)
Definition ismember (x : Q) (l : list Q) : bool := existsb (Qeq_bool x) l.

(* ------------------------------------------------------------------------- *)
(** ** SILA driver: reading the data (part_000, lines 16-23) *)

Module Loader.

(** [toDelete = ismember(t.subid, [2204 2485])] *)
Definition denylist : list Q := [2204; 2485].

(** The subid column is the first column of the selected table. *)
Definition toDelete (r : list cell) : bool :=
  match nth 0 r None with
  | Some s => ismember s denylist
  | None => false
  end.

(** [t(toDelete,:) = []] *)
Definition delete_rows (t : table) : table :=
  mk_table (vars t) (filter (fun r => negb (toDelete r)) (data t)).

(** Lines 16-23:
<<
t = t_all(:,{'sid' 'age' ROI});
t.Properties.VariableNames = ["subid","age", "val"];
t = rmmissing(t);
toDelete = ismember(t.subid,[2204 2485]);
t(toDelete,:) = [];
>> *)
Definition load_data (t_all : table) (ROI : string) : option table :=
  match select_vars t_all ["sid"; "age"; ROI]%string with
  | Some t =>
      let t := rename_vars t ["subid"; "age"; "val"]%string in
      let t := rmmissing t in
      Some (delete_rows t)
  | None => None
  end.

(** The loader as the specification describes it, row by row: a row of the
    input survives iff its subject id, age and value are all present and its
    subject id is not denylisted; a surviving row keeps exactly these three
    entries, unchanged. *)
Definition row_cells (t_all : table) (ROI : string) (r : list cell) : list cell :=
  map (fun n => match index_of n (vars t_all) with
                | Some i => nth i r None
                | None => None
                end) ["sid"; "age"; ROI]%string.

Definition keep_row (t_all : table) (ROI : string) (r : list cell) : bool :=
  match row_cells t_all ROI r with
  | [Some s; Some _; Some _] => negb (ismember s denylist)
  | _ => false
  end.

End Loader.

(* ------------------------------------------------------------------------- *)
(** ** NBS driver: stacking and the design matrix (part_001, lines 32-56) *)

Module Design.

(** A 2-D double array with its number of columns; [size(M,1)] is the
    length of [mrows]. *)
Record Mat := mk_mat { ncols : nat; mrows : list (list Q) }.

(** A 3-D array [d1 x d2 x n]: [n] slices of size [d1 x d2]. *)
Record Arr3 := mk_arr3 { d1 : nat; d2 : nat; slices : list (list (list Q)) }.

Definition is_empty (m : Mat) : bool := Nat.eqb (length (mrows m)) 0 && Nat.eqb (ncols m) 0.

(** [cat(3, a, b)]: the slice sizes must agree. *)
Definition cat3 (a b : Arr3) : option Arr3 :=
  if Nat.eqb (d1 a) (d1 b) && Nat.eqb (d2 a) (d2 b)
  then Some (mk_arr3 (d1 a) (d2 a) (slices a ++ slices b))
  else None.

(** [[a; b]]: vertical concatenation; a [0 x 0] operand is ignored. *)
Definition vertcat (a b : Mat) : option Mat :=
  if is_empty a then Some b
  else if is_empty b then Some a
  else if Nat.eqb (ncols a) (ncols b) then Some (mk_mat (ncols a) (mrows a ++ mrows b))
  else None.

(** [[a, b]]: horizontal concatenation; a [0 x 0] operand is ignored. *)
Definition horzcat (a b : Mat) : option Mat :=
  if is_empty a then Some b
  else if is_empty b then Some a
  else if Nat.eqb (length (mrows a)) (length (mrows b))
  then Some (mk_mat (ncols a + ncols b) (map (fun p => fst p ++ snd p) (combine (mrows a) (mrows b))))
  else None.

(** [zeros(n, m)] *)
Definition zeros (n m : nat) : Mat := mk_mat m (repeat (repeat 0 m) n).

Fixpoint set_nth {A} (j : nat) (v : A) (l : list A) : list A :=
  match l, j with
  | [], _ => []
  | _ :: l', O => v :: l'
  | x :: l', S j' => x :: set_nth j' v l'
  end.

Fixpoint mapi_from {A B} (k : nat) (f : nat -> A -> B) (l : list A) : list B :=
  match l with
  | [] => []
  | x :: l' => f k x :: mapi_from (S k) f l'
  end.

(** [M(lo+1:hi, j+1) = v] for [lo <= hi <= size(M,1)], [j < size(M,2)]
    (0-based [lo], [hi], [j] here). *)
Definition assign_rows (M : Mat) (lo hi j : nat) (v : Q) : Mat :=
  mk_mat (ncols M)
    (mapi_from 0 (fun i r => if Nat.leb lo i && Nat.ltb i hi then set_nth j v r else r) (mrows M)).

(** Lines 39-56:
<<
corr = cat(3, corr_1, corr_2);
len_group_1 = size(corr_1, 3);
len_group_2 = size(corr_2, 3);
design_mat = zeros(len_group_1+len_group_2, 2);
design_mat(1:len_group_1, 1) = 1;
design_mat(len_group_1+1:end, 2) = 1;
if use_covars
    covars = [covars_1; covars_2];
    design_mat = [design_mat, covars];
end
>>
    Returns the stacked correlation array and the design matrix, or [None]
    where MATLAB raises a dimension error. *)
Definition build_design (use_covars : bool) (corr_1 corr_2 : Arr3) (covars_1 covars_2 : Mat)
  : option (Arr3 * Mat) :=
  match cat3 corr_1 corr_2 with
  | None => None
  | Some corr =>
      let len_group_1 := length (slices corr_1) in
      let len_group_2 := length (slices corr_2) in
      let design_mat := zeros (len_group_1 + len_group_2) 2 in
      let design_mat := assign_rows design_mat 0 len_group_1 0 1 in
      let design_mat := assign_rows design_mat len_group_1 (len_group_1 + len_group_2) 1 1 in
      if use_covars then
        match vertcat covars_1 covars_2 with
        | None => None
        | Some covars =>
            match horzcat design_mat covars with
            | None => None
            | Some d => Some (corr, d)
            end
        end
      else Some (corr, design_mat)
  end.

End Design.

(* ------------------------------------------------------------------------- *)
(** ** NBS driver: running the toolbox and reading its results
       (part_001, lines 65-87) *)

Module NBS.

(** The fields of [nbs.NBS] read by the driver. *)
Record NBS_result := mk_nbs_result {
  n : nat;                          (* nbs.NBS.n *)
  con_mat : list (list Q);          (* nbs.NBS.con_mat *)
  pval : list Q;                    (* nbs.NBS.pval *)
  test_stat : list (list Q);        (* nbs.NBS.test_stat *)
  node_coor : list (list Q);        (* nbs.NBS.node_coor *)
  node_label : list string          (* nbs.NBS.node_label *)
}.

(** The MATLAB global workspace as far as the driver touches it: the
    global variable [nbs] ([None] while it is unset). *)
Record globals := mk_globals { nbs : option NBS_result }.

(** A state monad over the global workspace. *)
Definition M (A : Type) := globals -> A * globals.
Definition ret {A} (a : A) : M A := fun g => (a, g).
Definition bind {A B} (m : M A) (k : A -> M B) : M B :=
  fun g => let (a, g') := m g in k a g'.
Notation "x <- m ;; k" := (bind m (fun x => k)) (at level 61, m at next level, right associativity).
Definition get_global : M (option NBS_result) := fun g => (nbs g, g).
Definition set_global (r : NBS_result) : M unit := fun _ => (tt, mk_globals (Some r)).

(** The UI structure passed to [NBSrun]: field name and string value. *)
Definition UI := list (string * string).

(** Modelled from the spec and the driver's use of it: [NBSrun], the entry
    point of the vendored NBS toolbox (not in the sources). Its statistics
    engine is an opaque solver [stats]; the driver calls [NBSrun(UI,[])]
    without an output argument and then reads [global nbs], so the call
    returns nothing and leaves its result in the global [nbs]. *)
Definition NBSrun (stats : UI -> NBS_result) (ui : UI) : M unit :=
  set_global (stats ui).

(** What the driver extracts from [nbs.NBS] (lines 81-87). *)
Record extracted := mk_extracted {
  n_components : nat; adj_mat : list (list Q); e_pval : list Q;
  t_stat_mat : list (list Q); node_coords : list (list Q); node_labels : list string
}.

Definition extract (r : NBS_result) : extracted :=
  mk_extracted (n r) (con_mat r) (pval r) (test_stat r) (node_coor r) (node_label r).

(** Lines 78-87:
<<
NBSrun(UI,[])
global nbs
n_components = nbs.NBS.n;  adj_mat = nbs.NBS.con_mat;  pval = nbs.NBS.pval;
t_stat_mat = nbs.NBS.test_stat;  node_coords = nbs.NBS.node_coor;
node_labels = nbs.NBS.node_label;
>>
    [None] is the error raised when [nbs] is unset. *)
Definition run_and_extract (stats : UI -> NBS_result) (ui : UI) : M (option extracted) :=
  _ <- NBSrun stats ui ;;
  g <- get_global ;;
  ret (option_map extract g).

End NBS.

(* ------------------------------------------------------------------------- *)
(** ** SILA (vendored, not in the sources): modelled from the spec *)

Module SILA.

Definition Qltb (x y : Q) : bool := negb (Qle_bool y x).

(** An observation: a row [(subid, age, val)] of the loaded table. *)
Record obs := mk_obs { subid : Q; age : Q; val : Q }.

(** *** Rate sampling *)

(** A rate sample: value and annualised rate. *)
Record sample := mk_sample { s_val : Q; s_rate : Q }.

(** The observations of subject [s], in table order. *)
Definition obs_of (s : Q) (os : list obs) : list obs :=
  filter (fun o => Qeq_bool (subid o) s) os.

(** The subjects of the table, in order of first appearance. *)
Fixpoint subjects_acc (seen : list Q) (os : list obs) : list Q :=
  match os with
  | [] => []
  | o :: os' =>
      if ismember (subid o) seen then subjects_acc seen os'
      else subid o :: subjects_acc (subid o :: seen) os'
  end.
Definition subjects (os : list obs) : list Q := subjects_acc [] os.

(** Stable insertion sort by age. *)
Fixpoint insert_by_age (o : obs) (l : list obs) : list obs :=
  match l with
  | [] => [o]
  | o' :: l' => if Qle_bool (age o) (age o') then o :: l else o' :: insert_by_age o l'
  end.
Fixpoint sort_by_age (l : list obs) : list obs :=
  match l with
  | [] => []
  | o :: l' => insert_by_age o (sort_by_age l')
  end.

(** Modelled from the spec (rate-sampling input, section 4.1): a
    consecutive pair of one subject's observations gives the sample
    [((v1+v2)/2, (v2-v1)/(a2-a1))]. *)
Definition pair_sample (o1 o2 : obs) : sample :=
  mk_sample ((val o1 + val o2) / 2) ((val o2 - val o1) / (age o2 - age o1)).

Fixpoint pair_samples (l : list obs) : list sample :=
  match l with
  | o1 :: ((o2 :: _) as l') => pair_sample o1 o2 :: pair_samples l'
  | _ => []
  end.

Definition subject_samples (os : list obs) (s : Q) : list sample :=
  pair_samples (sort_by_age (obs_of s os)).

(** Modelled from the spec: the pooled rate samples of all subjects. *)
Definition rate_samples (os : list obs) : list sample :=
  flat_map (subject_samples os) (subjects os).

(** *** Curve integrator *)

Section Integrator.

(** The smoothed rate curve, [rate(value)] in value units per year. *)
Variable rate : Q -> Q.

(** The value grid from [v] with signed step [h]. *)
Fixpoint grid (v h : Q) (k : nat) : Q :=
  match k with
  | O => v
  | S k' => grid v h k' + h
  end.

(** Modelled from the spec (section 4.2): from value [v] at time [t],
    step the value by [h] and add the trapezoidal time increment
    [h * (1/rate(v) + 1/rate(v+h)) / 2], at most [fuel] times. A step
    across which the rate is zero or changes sign stops the integration
    and reports the value reached ([Some v']). *)
Fixpoint integ (fuel : nat) (h v t : Q) : list (Q * Q) * option Q :=
  match fuel with
  | O => ([], None)
  | S f =>
      let v' := v + h in
      if Qltb 0 (rate v * rate v') then
        let t' := t + h * (/ rate v + / rate v') / 2 in
        let (rest, e) := integ f h v' t' in ((t', v') :: rest, e)
      else ([], Some v')
  end.

(** The canonical trajectory, as [(time_from_threshold, value)] pairs
    ordered by value, and the truncation points reported below and above
    the threshold. *)
Record curve := mk_curve { traj : list (Q * Q); trunc_lo : option Q; trunc_hi : option Q }.

(** Modelled from the spec: integrate from the threshold [thr] (time 0)
    outwards in both directions with value step [dv], [nsteps] steps each. *)
Definition integrate (thr dv : Q) (nsteps : nat) : curve :=
  let (up, ehi) := integ nsteps dv thr 0 in
  let (down, elo) := integ nsteps (- dv) thr 0 in
  mk_curve (rev down ++ (0, thr) :: up) elo ehi.

End Integrator.

(** *** Per-subject projector *)

(** Linear interpolation of the time at value [v] against the trajectory;
    [None] when no segment covers [v]. *)
Fixpoint interp (tr : list (Q * Q)) (v : Q) : option Q :=
  match tr with
  | [] => None
  | [(t1, v1)] => if Qeq_bool v v1 then Some t1 else None
  | (t1, v1) :: (((t2, v2) :: _) as tr') =>
      if Qle_bool v1 v && Qle_bool v v2
      then Some (t1 + (v - v1) * (t2 - t1) / (v2 - v1))
      else interp tr' v
  end.

(** The covered value range of a trajectory. *)
Definition val_range (tr : list (Q * Q)) : option (Q * Q) :=
  match map snd tr with
  | [] => None
  | x :: xs => Some (fold_left Qmin xs x, fold_left Qmax xs x)
  end.

Definition out_of_range (tr : list (Q * Q)) (v : Q) : Prop :=
  match val_range tr with
  | Some (lo, hi) => v < lo \/ hi < v
  | None => True
  end.

Fixpoint sumQ (l : list Q) : Q :=
  match l with [] => 0 | x :: l' => x + sumQ l' end.

(** Least-squares horizontal shift of one subject: the mean of
    [time - age] over the subject's observations that interpolate. *)
Definition subject_offset (tr : list (Q * Q)) (os : list obs) (s : Q) : option Q :=
  let d := flat_map (fun o => match interp tr (val o) with
                              | Some t => [t - age o]
                              | None => []
                              end) (obs_of s os) in
  match d with
  | [] => None
  | _ => Some (sumQ d / inject_Z (Z.of_nat (length d)))
  end.

(** One output row per observation. *)
Record estimate_row := mk_row {
  r_subid : Q; r_age : Q; r_val : Q;
  estdtt0 : option Q;   (* estimated time from threshold *)
  estaget0 : option Q;  (* estimated age at threshold *)
  extrap : bool         (* value outside the trajectory: unreliable *)
}.

(** Modelled from the spec (section 4.3): a single-observation subject
    gets the direct interpolation, a subject with several observations the
    shift-aligned time [age + offset]; a value the trajectory does not
    cover is flagged. *)
Definition est_row (tr : list (Q * Q)) (os : list obs) (o : obs) : estimate_row :=
  let direct := interp tr (val o) in
  let est := match obs_of (subid o) os with
             | [_] => direct
             | _ => option_map (fun c => age o + c) (subject_offset tr os (subid o))
             end in
  mk_row (subid o) (age o) (val o) est (option_map (fun t => age o - t) est)
         (match direct with None => true | Some _ => false end).

(** [SILA_estimate(tsila, age, val, subid)] *)
Definition SILA_estimate (tr : list (Q * Q)) (os : list obs) : list estimate_row :=
  map (est_row tr os) os.

End SILA.

(* ------------------------------------------------------------------------- *)
(** ** Laterality categorisation (not in the sources): modelled from the spec *)

Module Laterality.

Inductive category := LeftAsym | Symmetric | RightAsym.

(** Modelled from the spec (glossary): signed normalised left-right
    difference. *)
Definition laterality_index (left right : Q) : Q := (left - right) / (left + right).

(** Modelled from the spec (section 4.4): a fixed band [[-band, band]]
    around zero, edges included, is symmetric. *)
Definition categorize (li band : Q) : category :=
  if Qle_bool (- band) li && Qle_bool li band then Symmetric
  else if Qle_bool li band then RightAsym
  else LeftAsym.

End Laterality.

(* ------------------------------------------------------------------------- *)
(** ** pandas data frames (notebooks in src/projects/01_tau_asymmetry/code) *)

Module Pandas.

(** A data-frame entry: a number, a string, or a missing entry (NaN). *)
Inductive pyval := PNum (q : Q) | PStr (s : string) | PNaN.

(** A data frame: column names and rows, one entry per column. Row labels
    are not modelled: the frames here come from [read_csv] and are
    filtered, so a label selects the row it was read with. *)
Record frame := mk_frame { columns : list string; rows : list (list pyval) }.

Fixpoint indices_of (x : string) (l : list string) (k : nat) : list nat :=
  match l with
  | [] => []
  | y :: l' => if String.eqb x y then k :: indices_of x l' (S k) else indices_of x l' (S k)
  end.

(** [df[names]]: every column carrying one of the names, in the order of
    [names]; an unknown name raises [KeyError] ([None]). *)
Definition select_cols (f : frame) (names : list string) : option frame :=
  match mapM_option (fun n => match indices_of n (columns f) 0 with
                              | [] => None
                              | is => Some is
                              end) names with
  | Some iss =>
      let is := concat iss in
      Some (mk_frame (map (fun i => nth i (columns f) EmptyString) is)
                     (map (fun r => map (fun i => nth i r PNaN) is) (rows f)))
  | None => None
  end.

Definition notna (v : pyval) : bool := match v with PNaN => false | _ => true end.

(** [df.dropna()]: drop every row with a missing entry. *)
Definition dropna (f : frame) : frame :=
  mk_frame (columns f) (filter (forallb notna) (rows f)).

(** The position of column [n], for [df[n]] as a single column. An absent
    name raises [KeyError]; [read_csv] never yields duplicate names, and a
    duplicated one (for which [df[n]] is a frame) is an error as well. *)
Definition col_index (f : frame) (n : string) : option nat :=
  match indices_of n (columns f) 0 with
  | [k] => Some k
  | _ => None
  end.

(** [df[mask]] for a row predicate. *)
Definition filter_rows (f : frame) (p : list pyval -> bool) : frame :=
  mk_frame (columns f) (filter p (rows f)).

(** [v == x] for a string [x]: false on numbers and NaN. *)
Definition eq_str (v : pyval) (x : string) : bool :=
  match v with PStr s => String.eqb s x | _ => false end.

(** [v.isin(xs)] for strings [xs]. *)
Definition isin_str (v : pyval) (xs : list string) : bool := existsb (eq_str v) xs.

Definition is_str (v : pyval) : bool := match v with PStr _ => true | _ => false end.

End Pandas.

(** ** Python's [int] and [str.replace] on ASCII strings *)

Module PyInt.

Definition is_digit (c : ascii) : bool :=
  Nat.leb 48 (nat_of_ascii c) && Nat.leb (nat_of_ascii c) 57.

Definition digit_val (c : ascii) : Z := (Z.of_nat (nat_of_ascii c) - 48)%Z.

(** [str.isspace] on ASCII: tab, line feed, vertical tab, form feed,
    carriage return, the separators 0x1c-0x1f and the space. *)
Definition is_space (c : ascii) : bool :=
  (Nat.leb 9 (nat_of_ascii c) && Nat.leb (nat_of_ascii c) 13)
  || (Nat.leb 28 (nat_of_ascii c) && Nat.leb (nat_of_ascii c) 32).

Fixpoint lstrip (l : list ascii) : list ascii :=
  match l with
  | c :: r => if is_space c then lstrip r else l
  | [] => []
  end.

Definition strip (l : list ascii) : list ascii := rev (lstrip (rev (lstrip l))).

(** Decimal digits after the first, each optionally preceded by a single
    underscore. *)
Fixpoint int_digits (l : list ascii) (acc : Z) : option Z :=
  match l with
  | [] => Some acc
  | c :: r =>
      if is_digit c then int_digits r (acc * 10 + digit_val c)%Z
      else if Ascii.eqb c "_"%char then
        match r with
        | d :: r' => if is_digit d then int_digits r' (acc * 10 + digit_val d)%Z else None
        | [] => None
        end
      else None
  end.

Definition int_body (l : list ascii) : option Z :=
  match l with
  | c :: r => if is_digit c then int_digits r (digit_val c) else None
  | [] => None
  end.

(** [int(s)]: surrounding whitespace, an optional sign, then decimal
    digits; anything else raises [ValueError] ([None]). *)
Definition py_int (s : string) : option Z :=
  match strip (list_ascii_of_string s) with
  | c :: r =>
      if Ascii.eqb c "-"%char then option_map Z.opp (int_body r)
      else if Ascii.eqb c "+"%char then int_body r
      else int_body (c :: r)
  | [] => None
  end.

Fixpoint prefixb (p l : list ascii) : bool :=
  match p, l with
  | [], _ => true
  | a :: p', b :: l' => Ascii.eqb a b && prefixb p' l'
  | _ :: _, [] => false
  end.

Fixpoint replace_aux (fuel : nat) (old new l : list ascii) : list ascii :=
  match fuel with
  | O => l
  | S fuel' =>
      match l with
      | [] => []
      | c :: r =>
          if prefixb old l then new ++ replace_aux fuel' old new (skipn (length old) l)
          else c :: replace_aux fuel' old new r
      end
  end.

(** [s.replace(old, new)]: every non-overlapping occurrence of [old],
    scanning left to right; an empty [old] puts [new] around every
    character. *)
Definition str_replace (s old new : string) : string :=
  let l := list_ascii_of_string s in
  let o := list_ascii_of_string old in
  let nw := list_ascii_of_string new in
  string_of_list_ascii
    (match o with
     | [] => nw ++ flat_map (fun c => c :: nw) l
     | _ => replace_aux (length l) o nw l
     end).

(** [astype(int)]: a 64-bit integer; a value out of range raises
    [OverflowError]. *)
Definition astype_int (z : Z) : option Z :=
  if (- 2 ^ 63 <=? z)%Z && (z <? 2 ^ 63)%Z then Some z else None.

End PyInt.

(* ------------------------------------------------------------------------- *)
(** ** Export of the longitudinal data for SILA (06_pre_SILA.ipynb, cell 4)
       and its reading in part_000 (lines 3, 15) *)

Module SILAExport.
Import Pandas PyInt.

Definition amy_prefix : string := "fnc".

(** [cutoff_ROIs] (cell 3) *)
Definition cutoff_ROIs : list string :=
  map (fun s => amy_prefix ++ "_" ++ s)%string
      ["global"; "temporal_meta"; "early_amyloid"; "intermediate_amyloid"; "late_amyloid"]%string.

Definition export_cols : list string :=
  ["sid"; "age"]%string ++ map (fun roi => roi ++ "_left")%string cutoff_ROIs
                        ++ map (fun roi => roi ++ "_right")%string cutoff_ROIs.

(** [df_ld_ac['sid'].str.replace('BF', '').astype(int)] on one entry:
    [.str] gives NaN on a non-string, and [astype(int)] raises on NaN, on
    a string that is no integer literal, and out of the 64-bit range. *)
Definition conv_sid (v : pyval) : option Z :=
  match v with
  | PStr s => match py_int (str_replace s "BF" "") with
              | Some z => astype_int z
              | None => None
              end
  | _ => None
  end.

(** Cell 4:
<<
df_ld_ac = df_ld.copy()
df_ld_ac = df_ld_ac[['sid', 'age'] + [roi+'_left' for roi in cutoff_ROIs]
              + [roi+'_right' for roi in cutoff_ROIs]].dropna().reset_index(drop=True)
df_ld_ac['sid'] = df_ld_ac['sid'].str.replace('BF', '').astype(int)
>> *)
Definition export_ld (df_ld : frame) : option frame :=
  match select_cols df_ld export_cols with
  | None => None
  | Some f =>
      let f := dropna f in
      match col_index f "sid" with
      | None => None
      | Some k =>
          match mapM_option (fun r => conv_sid (nth k r PNaN)) (rows f) with
          | None => None
          | Some sids =>
              Some (mk_frame (columns f)
                      (map (fun p => Design.set_nth k (PNum (inject_Z (snd p))) (fst p))
                           (combine (rows f) sids)))
          end
      end
  end.

(** [df_ld_ac.to_csv(...)] read back by [readtable(input_fname)] in
    part_000: the exported columns are numeric, and a number is written
    and read back unchanged. *)
Definition to_cell (v : pyval) : cell :=
  match v with PNum q => Some q | _ => None end.

Definition csv_roundtrip (f : frame) : table :=
  mk_table (columns f) (map (map to_cell) (rows f)).

(** The table [t] of part_000 (lines 15-23) computed from [df_ld]. *)
Definition sila_input (df_ld : frame) : option table :=
  match export_ld df_ld with
  | Some f => Loader.load_data (csv_roundtrip f) "fnc_late_amyloid_right"
  | None => None
  end.

End SILAExport.

(* ------------------------------------------------------------------------- *)
(** ** Sample selection for the amyloid cut-offs (06_pre_SILA.ipynb, cell 3) *)

Module SampleSelection.
Import Pandas.

Definition diagnoses : list string := ["AD"; "SCD"; "MCI"; "Normal"]%string.

(** [df['excluded'] != 1]: NaN and strings differ from 1. *)
Definition is_one (v : pyval) : bool :=
  match v with PNum q => Qeq_bool q 1 | _ => false end.

Definition drop_excluded (f : frame) : option frame :=
  match col_index f "excluded" with
  | Some k => Some (filter_rows f (fun r => negb (is_one (nth k r PNaN))))
  | None => None
  end.

Definition keep_diagnoses (f : frame) : option frame :=
  match col_index f "diagnosis_baseline_variable" with
  | Some k => Some (filter_rows f (fun r => isin_str (nth k r PNaN) diagnoses))
  | None => None
  end.

(** [df['age'] > 50]: NaN compares false; a string raises [TypeError]. *)
Definition gt50 (v : pyval) : bool :=
  match v with PNum q => negb (Qle_bool q 50) | _ => false end.

Definition keep_age (f : frame) : option frame :=
  match col_index f "age" with
  | Some k =>
      if existsb (fun r => is_str (nth k r PNaN)) (rows f) then None
      else Some (filter_rows f (fun r => gt50 (nth k r PNaN)))
  | None => None
  end.

(** Equality of group keys: numbers by value, strings by content. *)
Definition key_eqb (a b : pyval) : bool :=
  match a, b with
  | PNum x, PNum y => Qeq_bool x y
  | PStr s, PStr t => String.eqb s t
  | _, _ => false
  end.

Definition key_leb (a b : pyval) : bool :=
  match a, b with
  | PNum x, PNum y => Qle_bool x y
  | PStr s, PStr t => String.leb s t
  | _, _ => false
  end.

(** The distinct keys of a list. *)
Fixpoint distinct_keys (l : list pyval) : list pyval :=
  match l with
  | [] => []
  | x :: r => if existsb (key_eqb x) r then distinct_keys r else x :: distinct_keys r
  end.

Fixpoint insert_by {A} (le : A -> A -> bool) (x : A) (l : list A) : list A :=
  match l with
  | [] => [x]
  | y :: l' => if le x y then x :: l else y :: insert_by le x l'
  end.

Definition sort_by {A} (le : A -> A -> bool) (l : list A) : list A :=
  fold_right (insert_by le) [] l.

Definition is_num (v : pyval) : bool := match v with PNum _ => true | _ => false end.

(** The groups of [groupby]: missing keys are dropped and the keys are
    sorted; numeric and text keys mixed are outside the model ([None]). *)
Definition sorted_keys (ks : list pyval) : option (list pyval) :=
  let ks := distinct_keys (filter notna ks) in
  if forallb is_num ks || forallb is_str ks then Some (sort_by key_leb ks) else None.

(** [idxmin] in one group: the first row with the smallest visit; missing
    visits are skipped, and a group without any visit raises. Text visit
    labels are outside the model ([None]). *)
Definition first_min (kv : nat) (rs : list (list pyval)) : option (list pyval) :=
  if existsb (fun r => is_str (nth kv r PNaN)) rs then None else
  match filter (fun r => notna (nth kv r PNaN)) rs with
  | [] => None
  | c :: cs =>
      Some (fold_left (fun b r =>
              match nth kv r PNaN, nth kv b PNaN with
              | PNum x, PNum y => if Qle_bool y x then b else r
              | _, _ => b
              end) cs c)
  end.

(** [df.loc[df.groupby('mid')['Visit'].idxmin()]] *)
Definition first_visits (f : frame) : option frame :=
  match col_index f "mid", col_index f "Visit" with
  | Some km, Some kv =>
      match sorted_keys (map (fun r => nth km r PNaN) (rows f)) with
      | Some ks =>
          match mapM_option (fun k => first_min kv
                   (filter (fun r => key_eqb k (nth km r PNaN)) (rows f))) ks with
          | Some rs => Some (mk_frame (columns f) rs)
          | None => None
          end
      | None => None
      end
  | _, _ => None
  end.

(** Cell 3, the sample selection:
<<
df_gmm = df_bf2.copy()
df_gmm = df_gmm[df_gmm['excluded']!=1]
df_gmm = df_gmm[df_gmm['diagnosis_baseline_variable'].isin(['AD', 'SCD', 'MCI', 'Normal'])]
df_gmm = df_gmm.loc[df_gmm['age']>50]
df_gmm['amyloid_positive'] = df_gmm.apply(determine_amyloid_status, axis=1)
df_gmm = df_gmm.loc[df_gmm.groupby('mid')['Visit'].idxmin()]
>>
    The added column [amyloid_positive] ([determine_amyloid_status] is not
    in the sources) plays no part in the row selection and is left out. *)
Definition select_sample (df_bf2 : frame) : option frame :=
  match drop_excluded df_bf2 with
  | None => None
  | Some f =>
      match keep_diagnoses f with
      | None => None
      | Some f =>
          match keep_age f with
          | None => None
          | Some f => first_visits f
          end
      end
  end.

End SampleSelection.

(* ------------------------------------------------------------------------- *)
(** ** Asymmetry groups for NBS (04_pre_NBS.ipynb, cells 2-3) *)

Module AsymmetryGroups.
Import Pandas.




End AsymmetryGroups.

(* ------------------------------------------------------------------------- *)
(** ** SILA driver: the individual case plotted (part_000, lines 86-87) *)

Module IndividualCase.
Import SILA.

(** [sila_out.estdtt0>1 & sila_out.estdtt0<10]: NaN compares false. *)
Definition in_window (r : estimate_row) : bool :=
  match estdtt0 r with Some t => Qltb 1 t && Qltb t 10 | None => false end.

(** [find(mask, 1)], 0-based. *)
Fixpoint find_first {A} (p : A -> bool) (l : list A) : option nat :=
  match l with
  | [] => None
  | x :: l' => if p x then Some 0%nat else option_map S (find_first p l')
  end.

Definition row0 : estimate_row := mk_row 0 0 0 None None false.

(** Lines 86-87:
<<
sub = find(sila_out.estdtt0>1 & sila_out.estdtt0<10,1);
ids = sila_out.subid==sila_out.subid(sub);
>>
    Without a match [sub] is empty, and [==] compares the [N x 1] column
    with an empty one: implicit expansion gives an empty result for
    [N <= 1] and raises for [N >= 2] ([None]). *)
Definition individual_case (sila_out : list estimate_row) : option (list bool) :=
  match find_first in_window sila_out with
  | Some k =>
      let s := r_subid (nth k sila_out row0) in
      Some (map (fun r => Qeq_bool (r_subid r) s) sila_out)
  | None => if Nat.leb (length sila_out) 1 then Some [] else None
  end.

End IndividualCase.

(* ========================================================================= *)
(** * Proofs *)

(** ** Generic list facts *)

Lemma filter_map_comm {A B} (p : B -> bool) (f : A -> B) (l : list A) :
  filter p (map f l) = map f (filter (fun x => p (f x)) l).
Proof.
  induction l as [|x l IH]; simpl; [reflexivity|].
  destruct (p (f x)); simpl; rewrite IH; reflexivity.
Qed.

Lemma filter_filter_andb {A} (p q : A -> bool) (l : list A) :
  filter q (filter p l) = filter (fun x => p x && q x) l.
Proof.
  induction l as [|x l IH]; simpl; [reflexivity|].
  destruct (p x); simpl; [destruct (q x); simpl|]; rewrite IH; reflexivity.
Qed.

Lemma filter_ext_eq {A} (p q : A -> bool) (l : list A) :
  (forall x, p x = q x) -> filter p l = filter q l.
Proof.
  intros H; induction l as [|x l IH]; simpl; [reflexivity|].
  rewrite H, IH; reflexivity.
Qed.

Lemma mapM_option_map {A B C} (f : A -> option B) (g : B -> C) (d : C) l ys :
  mapM_option f l = Some ys ->
  map (fun x => match f x with Some y => g y | None => d end) l = map g ys.
Proof.
  revert ys; induction l as [|x l IH]; intros ys H; simpl in *.
  - inversion H; reflexivity.
  - destruct (f x) as [y|]; [|discriminate].
    destruct (mapM_option f l) as [ys'|] eqn:E; simpl in H; [|discriminate].
    inversion H; subst; simpl; f_equal; apply IH; reflexivity.
Qed.

Lemma mapM_option_None {A B} (f : A -> option B) l :
  mapM_option f l = None -> exists x, In x l /\ f x = None.
Proof.
  induction l as [|x l IH]; simpl; [discriminate|].
  destruct (f x) eqn:Fx.
  - destruct (mapM_option f l); simpl; [discriminate|].
    intros _; destruct IH as [y [Hy Hf]]; [reflexivity|eauto].
  - intros _; eauto.
Qed.

(** ** The data loader *)

Module LoaderProofs.
Import Loader.

(** C8: the loader returns exactly the [(subid, age, val)] entries of the
    input rows whose three entries are present and whose subject id is not
    denylisted, in input order and unchanged; it fails only when one of
    the three columns does not exist. *)
Theorem load_data_keeps_complete_allowed_rows (t_all : table) (ROI : string) :
  match load_data t_all ROI with
  | Some t =>
      vars t = ["subid"; "age"; "val"]%string /\
      data t = map (row_cells t_all ROI) (filter (keep_row t_all ROI) (data t_all))
  | None => exists n, In n ["sid"; "age"; ROI]%string /\ index_of n (vars t_all) = None
  end.
Proof.
  unfold load_data, select_vars.
  destruct (mapM_option (fun n => index_of n (vars t_all)) ["sid"; "age"; ROI]%string)
    as [idxs|] eqn:E.
  - simpl; split; [reflexivity|].
    unfold delete_rows, rmmissing, row_cells; simpl.
    assert (Hrc : forall r : list cell, map (fun n => match index_of n (vars t_all) with
                                          | Some i => nth i r None | None => None end)
                             ["sid"; "age"; ROI]%string
                       = map (fun i => nth i r None) idxs)
      by (intros r; apply (mapM_option_map (fun n => index_of n (vars t_all))
                                           (fun i => nth i r None) None); exact E).
    rewrite filter_filter_andb, filter_map_comm.
    assert (Hl : length idxs = 3%nat).
    { assert (H := f_equal (@length _) (Hrc [])). rewrite !length_map in H. simpl in H; lia. }
    transitivity (map (fun r => map (fun i => nth i r None) idxs)
                      (filter (keep_row t_all ROI) (data t_all))).
    + f_equal. apply filter_ext_eq. intros r. unfold keep_row, row_cells.
      rewrite Hrc.
      destruct idxs as [|i1 [|i2 [|i3 [|? ?]]]]; simpl in Hl; try lia.
      unfold toDelete, cell in *; simpl.
      destruct (nth i1 r None), (nth i2 r None), (nth i3 r None); reflexivity.
    + apply map_ext. intros r. symmetry. apply Hrc.
  - apply mapM_option_None in E. exact E.
Qed.

End LoaderProofs.

(** ** The design matrix *)

Module DesignProofs.
Import Design.

(** The group-indicator row of row [i] (0-based). *)
Definition ind_row (len_group_1 i : nat) : list Q :=
  if Nat.ltb i len_group_1 then [1; 0] else [0; 1].

Lemma mapi_from_map_seq {A B} (f : nat -> A -> B) (h : nat -> A) k n :
  mapi_from k f (map h (seq k n)) = map (fun i => f i (h i)) (seq k n).
Proof.
  revert k; induction n as [|n IH]; intros k; simpl; [reflexivity|].
  f_equal; apply IH.
Qed.

Lemma repeat_map_seq {A} (x : A) k n : repeat x n = map (fun _ => x) (seq k n).
Proof.
  revert k; induction n as [|n IH]; intros k; simpl; [reflexivity|].
  f_equal; apply IH.
Qed.

(** Rows of [design_mat] after the two assignments (lines 44-46). *)
Lemma indicator_rows (n1 n2 : nat) :
  mrows (assign_rows (assign_rows (zeros (n1 + n2) 2) 0 n1 0 1) n1 (n1 + n2) 1 1)
  = map (ind_row n1) (seq 0 (n1 + n2)).
Proof.
  unfold assign_rows, zeros; simpl.
  rewrite (repeat_map_seq _ 0), !mapi_from_map_seq.
  apply map_ext_in. intros i Hi. apply in_seq in Hi.
  unfold ind_row.
  destruct (Nat.ltb i n1) eqn:E1;
    [apply Nat.ltb_lt in E1 | apply Nat.ltb_ge in E1];
    destruct (Nat.leb 0 i) eqn:E2; try (apply Nat.leb_gt in E2; lia);
    destruct (Nat.leb n1 i) eqn:E3;
    try (apply Nat.leb_le in E3); try (apply Nat.leb_gt in E3); try lia;
    destruct (Nat.ltb i (n1 + n2)) eqn:E4;
    try (apply Nat.ltb_lt in E4); try (apply Nat.ltb_ge in E4); try lia;
    reflexivity.
Qed.

Lemma nth_combine_app (a b : list (list Q)) i :
  length a = length b -> (i < length a)%nat ->
  nth i (map (fun p => fst p ++ snd p) (combine a b)) [] = nth i a [] ++ nth i b [].
Proof.
  revert b i; induction a as [|x a IH]; intros [|y b] i Hl Hi; simpl in *; try lia.
  destruct i; simpl; [reflexivity|]. apply IH; lia.
Qed.

Lemma nth_ind_rows n1 n i :
  (i < n)%nat -> nth i (map (ind_row n1) (seq 0 n)) [] = ind_row n1 i.
Proof.
  intros Hi. rewrite nth_indep with (d' := ind_row n1 0) by (rewrite length_map, length_seq; lia).
  rewrite map_nth, seq_nth by lia. reflexivity.
Qed.

Lemma indicator_rows_eq (n1 n2 : nat) :
  assign_rows (assign_rows (zeros (n1 + n2) 2) 0 n1 0 1) n1 (n1 + n2) 1 1
  = mk_mat 2 (map (ind_row n1) (seq 0 (n1 + n2))).
Proof.
  rewrite <- indicator_rows. reflexivity.
Qed.

Lemma firstn_prefix {A} (x y : list A) n : length x = n -> firstn n (x ++ y) = x.
Proof.
  intros <-. rewrite firstn_app, firstn_all, Nat.sub_diag, app_nil_r. reflexivity.
Qed.

Lemma vertcat_rows (a b c : Mat) :
  vertcat a b = Some c -> mrows c = mrows a ++ mrows b.
Proof.
  unfold vertcat, is_empty.
  destruct (Nat.eqb (length (mrows a)) 0) eqn:Ea, (Nat.eqb (ncols a) 0);
  destruct (Nat.eqb (length (mrows b)) 0) eqn:Eb, (Nat.eqb (ncols b) 0);
  simpl; intros H;
  try (apply Nat.eqb_eq, length_zero_iff_nil in Ea);
  try (apply Nat.eqb_eq, length_zero_iff_nil in Eb);
  repeat match goal with
         | H : (if ?c then _ else _) = _ |- _ => destruct c
         end;
  inversion H; subst; simpl;
  rewrite ?Ea, ?Eb, ?app_nil_r; reflexivity.
Qed.

(** C10 (amended): the design matrix has one row per stacked slice,
    [len_group_1 + len_group_2] of them; the stacked slices are group 1's
    then group 2's; the first [len_group_1] rows start with [1, 0] and the
    others with [0, 1]; and when covariates are used and each group's
    covariate matrix has one row per slice of that group, row [i] carries
    the covariates of slice [i]: group 1's row [i] for [i < len_group_1],
    group 2's row [i - len_group_1] otherwise. *)
Theorem design_rows_aligned (use_covars : bool) (corr_1 corr_2 : Arr3)
    (covars_1 covars_2 : Mat) (corr : Arr3) (D : Mat) :
  build_design use_covars corr_1 corr_2 covars_1 covars_2 = Some (corr, D) ->
  let n1 := length (slices corr_1) in
  let n2 := length (slices corr_2) in
  slices corr = slices corr_1 ++ slices corr_2 /\
  length (mrows D) = (n1 + n2)%nat /\
  length (slices corr) = (n1 + n2)%nat /\
  (forall i, (i < n1 + n2)%nat -> firstn 2 (nth i (mrows D) []) = ind_row n1 i) /\
  (use_covars = true -> length (mrows covars_1) = n1 -> length (mrows covars_2) = n2 ->
   (forall i, (i < n1)%nat -> nth i (mrows D) [] = [1; 0] ++ nth i (mrows covars_1) []) /\
   (forall i, (n1 <= i < n1 + n2)%nat ->
      nth i (mrows D) [] = [0; 1] ++ nth (i - n1) (mrows covars_2) [])).
Proof.
  intros Hb n1 n2. unfold build_design in Hb.
  destruct (cat3 corr_1 corr_2) as [c|] eqn:Ec; [|discriminate].
  fold n1 n2 in Hb. rewrite indicator_rows_eq in Hb.
  assert (Hc : slices c = slices corr_1 ++ slices corr_2).
  { unfold cat3 in Ec. destruct (_ && _); inversion Ec; reflexivity. }
  remember (mk_mat 2 (map (ind_row n1) (seq 0 (n1 + n2)))) as I eqn:EI.
  assert (HI : length (mrows I) = (n1 + n2)%nat)
    by (rewrite EI; simpl; rewrite length_map, length_seq; reflexivity).
  assert (HIn : forall i, (i < n1 + n2)%nat -> nth i (mrows I) [] = ind_row n1 i)
    by (intros; rewrite EI; apply nth_ind_rows; assumption).
  assert (Hlen2 : forall i, length (ind_row n1 i) = 2%nat)
    by (intros i; unfold ind_row; destruct (Nat.ltb i n1); reflexivity).
  assert (Hfirst : forall i, (i < n1 + n2)%nat -> forall y,
            firstn 2 (nth i (mrows I) [] ++ y) = ind_row n1 i)
    by (intros i Hi y; rewrite HIn by exact Hi; apply firstn_prefix, Hlen2).
  assert (Hslices : length (slices c) = (n1 + n2)%nat)
    by (rewrite Hc, length_app; reflexivity).
  destruct use_covars.
  - destruct (vertcat covars_1 covars_2) as [cv|] eqn:Ev; [|discriminate].
    apply vertcat_rows in Ev.
    unfold horzcat in Hb.
    replace (is_empty I) with false in Hb
      by (rewrite EI; unfold is_empty; simpl; rewrite andb_false_r; reflexivity).
    destruct (is_empty cv) eqn:Ee.
    + inversion Hb; subst corr D; clear Hb.
      assert (Hcv : mrows cv = []).
      { unfold is_empty in Ee. apply andb_true_iff in Ee as [E _].
        apply Nat.eqb_eq, length_zero_iff_nil in E; exact E. }
      split; [exact Hc|]. split; [exact HI|]. split; [exact Hslices|]. split.
      * intros i Hi. rewrite <- (app_nil_r (nth i (mrows I) [])). apply Hfirst, Hi.
      * intros _ Hk1 Hk2. rewrite Hcv in Ev.
        destruct (mrows covars_1) eqn:Hz1; [|discriminate]. simpl in Ev.
        rewrite <- Ev in Hk2. simpl in Hk1, Hk2. split; intros; lia.
    + destruct (Nat.eqb (length (mrows I)) (length (mrows cv))) eqn:El; [|discriminate].
      apply Nat.eqb_eq in El.
      inversion Hb; subst corr D; clear Hb; simpl mrows.
      split; [exact Hc|].
      split; [rewrite length_map, length_combine; lia|].
      split; [exact Hslices|]. split.
      * intros i Hi. rewrite nth_combine_app by lia. apply Hfirst, Hi.
      * intros _ Hk1 Hk2. split.
        -- intros i Hi. rewrite nth_combine_app by lia. rewrite HIn by lia.
           rewrite Ev, app_nth1 by lia. unfold ind_row.
           replace (Nat.ltb i n1) with true by (symmetry; apply Nat.ltb_lt; lia). reflexivity.
        -- intros i Hi. rewrite nth_combine_app by lia. rewrite HIn by lia.
           rewrite Ev, app_nth2 by lia. rewrite Hk1. unfold ind_row.
           replace (Nat.ltb i n1) with false by (symmetry; apply Nat.ltb_ge; lia). reflexivity.
  - inversion Hb; subst corr D; clear Hb.
    split; [exact Hc|]. split; [exact HI|]. split; [exact Hslices|]. split.
    + intros i Hi. rewrite <- (app_nil_r (nth i (mrows I) [])). apply Hfirst, Hi.
    + discriminate.
Qed.

Definition ex_corr_1 : Arr3 := mk_arr3 1 1 [[[1]]].
Definition ex_corr_2 : Arr3 := mk_arr3 1 1 [[[1]]; [[1]]].

(** Witness of C10: one group-1 and two group-2 slices with matching
    covariate rows. *)
Lemma design_rows_aligned_witness :
  exists corr D,
    build_design true ex_corr_1 ex_corr_2 (mk_mat 1 [[70]]) (mk_mat 1 [[60]; [80]]) = Some (corr, D) /\
    let n1 := length (slices ex_corr_1) in
    let n2 := length (slices ex_corr_2) in
    slices corr = slices ex_corr_1 ++ slices ex_corr_2 /\
    length (mrows D) = (n1 + n2)%nat /\
    length (slices corr) = (n1 + n2)%nat /\
    (forall i, (i < n1 + n2)%nat -> firstn 2 (nth i (mrows D) []) = ind_row n1 i) /\
    (true = true -> length (mrows (mk_mat 1 [[70]])) = n1 ->
     length (mrows (mk_mat 1 [[60]; [80]])) = n2 ->
     (forall i, (i < n1)%nat -> nth i (mrows D) [] = [1; 0] ++ nth i (mrows (mk_mat 1 [[70]])) []) /\
     (forall i, (n1 <= i < n1 + n2)%nat ->
        nth i (mrows D) [] = [0; 1] ++ nth (i - n1) (mrows (mk_mat 1 [[60]; [80]])) [])).
Proof.
  eexists; eexists; split; [reflexivity|].
  apply (design_rows_aligned true ex_corr_1 ex_corr_2 (mk_mat 1 [[70]]) (mk_mat 1 [[60]; [80]])).
  reflexivity.
Defined.

(** Counterexample to C10 as stated: with one group-1 slice, two group-2
    slices and covariate matrices of two and one rows, the totals agree,
    the concatenations succeed, and the first group-2 row of the design
    matrix carries group 1's second covariate row (80), not group 2's
    first (60). *)
Lemma design_rows_misaligned :
  build_design true ex_corr_1 ex_corr_2 (mk_mat 1 [[70]; [80]]) (mk_mat 1 [[60]])
    = Some (mk_arr3 1 1 [[[1]]; [[1]]; [[1]]], mk_mat 3 [[1; 0; 70]; [0; 1; 80]; [0; 1; 60]]) /\
  ~ (forall (use_covars : bool) corr_1 corr_2 covars_1 covars_2 corr D,
       build_design use_covars corr_1 corr_2 covars_1 covars_2 = Some (corr, D) ->
       use_covars = true ->
       forall i, (length (slices corr_1) <= i < length (slices corr_1) + length (slices corr_2))%nat ->
       nth i (mrows D) [] = [0; 1] ++ nth (i - length (slices corr_1)) (mrows covars_2) []).
Proof.
  split; [reflexivity|].
  intros H.
  specialize (H true ex_corr_1 ex_corr_2 (mk_mat 1 [[70]; [80]]) (mk_mat 1 [[60]]) _ _ eq_refl eq_refl 1%nat).
  simpl in H.
  assert (E : [0; 1; 80] = [0; 1; 60]) by (apply H; lia).
  inversion E.
Qed.

End DesignProofs.

(** ** The NBS results *)

Module NBSProofs.
Import NBS.

(** C9 (amended): [NBSrun] returns nothing ([tt]); it stores the toolbox
    result in the global [nbs], and the driver obtains the component count,
    adjacency matrix, p-values, test statistics, node coordinates and labels
    by reading that global back right after the call. *)
Theorem results_read_from_global (stats : UI -> NBS_result) (ui : UI) (g : globals) :
  NBSrun stats ui g = (tt, mk_globals (Some (stats ui))) /\
  run_and_extract stats ui g = (Some (extract (stats ui)), mk_globals (Some (stats ui))) /\
  (forall g', fst (run_and_extract stats ui g) = option_map extract (nbs (snd (NBSrun stats ui g')))).
Proof.
  split; [reflexivity|]. split; [reflexivity|]. intros g'; reflexivity.
Qed.

Definition stats0 (_ : UI) : NBS_result := mk_nbs_result 0 [] [] [] [] [].
Definition stats1 (_ : UI) : NBS_result := mk_nbs_result 1 [[1]] [1 # 100] [[3]] [] [].
Definition no_globals : globals := mk_globals None.

(** Counterexample to C9: the results the driver obtains are not a
    function of what [NBSrun] returns (two runs return the same [tt] and
    yield different results), and the call changes the global state. *)
Lemma results_not_returned :
  ~ (exists f : unit -> extracted, forall stats ui g,
        fst (run_and_extract stats ui g) = Some (f (fst (NBSrun stats ui g)))) /\
  snd (NBSrun stats1 [] no_globals) <> no_globals.
Proof.
  split.
  - intros [f Hf].
    pose proof (Hf stats0 [] no_globals) as H0.
    pose proof (Hf stats1 [] no_globals) as H1.
    simpl in H0, H1. rewrite <- H0 in H1. inversion H1.
  - simpl. discriminate.
Qed.

End NBSProofs.

(** ** Laterality categorisation *)

Module LateralityProofs.
Import Laterality.

Lemma categorize_cases (li band : Q) :
  (categorize li band = Symmetric /\ - band <= li /\ li <= band) \/
  (categorize li band = RightAsym /\ li < - band) \/
  (categorize li band = LeftAsym /\ band < li).
Proof.
  unfold categorize.
  destruct (Qle_bool (- band) li) eqn:E1, (Qle_bool li band) eqn:E2; simpl;
    rewrite ?Qle_bool_iff in E1, E2;
    repeat match goal with
           | H : Qle_bool _ _ = false |- _ =>
               apply not_true_iff_false in H; rewrite Qle_bool_iff in H; apply Qnot_le_lt in H
           end.
  - left; auto.
  - right; right; split; [reflexivity|assumption].
  - right; left; split; [reflexivity|assumption].
  - right; right; split; [reflexivity|assumption].
Qed.

(** C7: the category is determined by the index and the band (equal
    indices get equal categories); [[-band, band]] with both edges
    included is symmetric, below it right-asymmetric, above it
    left-asymmetric; in particular an index exactly at either band edge is
    symmetric. *)
Theorem categorize_band_edges (band : Q) (Hb : 0 <= band) :
  categorize band band = Symmetric /\
  categorize (- band) band = Symmetric /\
  (forall li, categorize li band = Symmetric <-> - band <= li <= band) /\
  (forall li, li < - band -> categorize li band = RightAsym) /\
  (forall li, band < li -> categorize li band = LeftAsym) /\
  (forall li li', li == li' -> categorize li band = categorize li' band).
Proof.
  assert (Hsym : forall li, categorize li band = Symmetric <-> - band <= li <= band).
  { intros li; split.
    - intros H. destruct (categorize_cases li band) as [[_ H']|[[H' _]|[H' _]]];
        [exact H'|rewrite H in H'; discriminate|rewrite H in H'; discriminate].
    - intros [H1 H2]. unfold categorize.
      apply Qle_bool_iff in H1; apply Qle_bool_iff in H2. rewrite H1, H2; reflexivity. }
  split; [apply Hsym; split; lra|].
  split; [apply Hsym; split; lra|].
  split; [exact Hsym|].
  split.
  { intros li Hli. destruct (categorize_cases li band) as [[_ [H' _]]|[[H' _]|[_ H']]];
      [lra|exact H'|lra]. }
  split.
  { intros li Hli. destruct (categorize_cases li band) as [[_ [_ H']]|[[_ H']|[H' _]]];
      [lra|lra|exact H']. }
  intros li li' Heq. unfold categorize.
  assert (E1 : Qle_bool (- band) li = Qle_bool (- band) li').
  { destruct (Qle_bool (- band) li) eqn:A, (Qle_bool (- band) li') eqn:B; try reflexivity;
      try rewrite Qle_bool_iff in A; try rewrite Qle_bool_iff in B;
      repeat match goal with
             | H : Qle_bool _ _ = false |- _ =>
                 apply not_true_iff_false in H; rewrite Qle_bool_iff in H; apply Qnot_le_lt in H
             end; exfalso; lra. }
  assert (E2 : Qle_bool li band = Qle_bool li' band).
  { destruct (Qle_bool li band) eqn:A, (Qle_bool li' band) eqn:B; try reflexivity;
      try rewrite Qle_bool_iff in A; try rewrite Qle_bool_iff in B;
      repeat match goal with
             | H : Qle_bool _ _ = false |- _ =>
                 apply not_true_iff_false in H; rewrite Qle_bool_iff in H; apply Qnot_le_lt in H
             end; exfalso; lra. }
  rewrite E1, E2; reflexivity.
Qed.

(** Witness of C7 at a band of 0.1. *)
Lemma categorize_band_edges_witness :
  0 <= 1 # 10 /\
  categorize (1 # 10) (1 # 10) = Symmetric /\
  categorize (- (1 # 10)) (1 # 10) = Symmetric /\
  (forall li, categorize li (1 # 10) = Symmetric <-> - (1 # 10) <= li <= 1 # 10) /\
  (forall li, li < - (1 # 10) -> categorize li (1 # 10) = RightAsym) /\
  (forall li, 1 # 10 < li -> categorize li (1 # 10) = LeftAsym) /\
  (forall li li', li == li' -> categorize li (1 # 10) = categorize li' (1 # 10)).
Proof.
  assert (H : 0 <= 1 # 10) by (unfold Qle; simpl; lia).
  split; [exact H|]. apply (categorize_band_edges (1 # 10) H).
Defined.

End LateralityProofs.

(** ** SILA: the curve integrator *)

Module SILAProofs.
Import SILA.

(** [chain R l]: [R] holds between consecutive elements of [l]. *)
Fixpoint chain {A} (R : A -> A -> Prop) (l : list A) : Prop :=
  match l with
  | x :: ((y :: _) as l') => R x y /\ chain R l'
  | _ => True
  end.

Lemma chain_app_mid {A} (R : A -> A -> Prop) l1 x l2 :
  chain R (l1 ++ [x]) -> chain R (x :: l2) -> chain R (l1 ++ x :: l2).
Proof.
  induction l1 as [|a l1 IH]; simpl; [tauto|].
  destruct l1 as [|b l1]; simpl in *; [tauto|].
  intros [H1 H2] H3. split; [exact H1|]. apply IH; assumption.
Qed.

Lemma chain_rev {A} (R : A -> A -> Prop) l :
  chain R l -> chain (fun a b => R b a) (rev l).
Proof.
  induction l as [|a l IH]; simpl; [tauto|].
  destruct l as [|b l]; simpl; [tauto|].
  intros [H1 H2]. simpl in IH.
  rewrite <- app_assoc. simpl.
  apply chain_app_mid; [apply IH, H2|]. simpl; tauto.
Qed.

Lemma chain_head {A} (R : A -> A -> Prop) (Htr : forall a b c, R a b -> R b c -> R a c) x l :
  chain R (x :: l) -> forall y, In y l -> R x y.
Proof.
  revert x; induction l as [|a l IH]; intros x Hc y Hy; [destruct Hy|].
  destruct Hc as [Hxa Hc]. destruct Hy as [<-|Hy]; [exact Hxa|].
  apply (Htr _ a); [exact Hxa|]. apply IH; assumption.
Qed.

(** Time and value both increase / time decreases as value increases. *)
Definition Rinc (p q : Q * Q) : Prop := fst p < fst q /\ snd p < snd q.
Definition Rdec (p q : Q * Q) : Prop := fst q < fst p /\ snd p < snd q.

Lemma grid_shift (v h : Q) k : grid (v + h) h k = grid v h (S k).
Proof. induction k as [|k IH]; simpl; [reflexivity|]. rewrite IH; reflexivity. Qed.

Lemma grid_lt_mono (v h : Q) i j : 0 < h -> (i < j)%nat -> grid v h i < grid v h j.
Proof.
  intros Hh Hij. induction Hij; simpl; [lra|]. lra.
Qed.

Lemma grid_gt_mono (v h : Q) i j : h < 0 -> (i < j)%nat -> grid v h j < grid v h i.
Proof.
  intros Hh Hij. induction Hij; simpl; [lra|]. lra.
Qed.

Lemma grid_le_mono (v h : Q) i j : 0 < h -> (i <= j)%nat -> grid v h i <= grid v h j.
Proof.
  intros Hh Hij. destruct (Nat.eq_dec i j) as [->|Hne]; [apply Qle_refl|].
  apply Qlt_le_weak, grid_lt_mono; [exact Hh|lia].
Qed.

Lemma grid_ge_mono (v h : Q) i j : h < 0 -> (i <= j)%nat -> grid v h j <= grid v h i.
Proof.
  intros Hh Hij. destruct (Nat.eq_dec i j) as [->|Hne]; [apply Qle_refl|].
  apply Qlt_le_weak, grid_gt_mono; [exact Hh|lia].
Qed.

Lemma Qltb_iff (x y : Q) : Qltb x y = true <-> x < y.
Proof.
  unfold Qltb. rewrite negb_true_iff, <- not_true_iff_false, Qle_bool_iff.
  split; [apply Qnot_le_lt|apply Qlt_not_le].
Qed.

Lemma inv_pos (a : Q) : 0 < a -> 0 < / a.
Proof. apply Qinv_lt_0_compat. Qed.

Lemma inv_neg (a : Q) : a < 0 -> / a < 0.
Proof.
  intros Ha. assert (E : a * / a == 1) by (apply Qmult_inv_r; intros E; rewrite E in Ha; lra).
  destruct (Qlt_le_dec (/ a) 0) as [H|H]; [exact H|]. nra.
Qed.

Section Integrator.
Variable rate : Q -> Q.

(** One integration step from [p] to [q] with value step [h]. *)
Definition step (h : Q) (p q : Q * Q) : Prop :=
  snd q = snd p + h /\ 0 < rate (snd p) * rate (snd q) /\
  fst q = fst p + h * (/ rate (snd p) + / rate (snd q)) / 2.

Lemma integ_chain f h v t : chain (step h) ((t, v) :: fst (integ rate f h v t)).
Proof.
  revert v t; induction f as [|f IH]; intros v t; simpl; [exact I|].
  destruct (Qltb 0 (rate v * rate (v + h))) eqn:E; simpl; [|exact I].
  apply Qltb_iff in E.
  specialize (IH (v + h) (t + h * (/ rate v + / rate (v + h)) / 2)).
  destruct (integ rate f h (v + h) _) as [rest e]; simpl in *.
  split; [|exact IH]. unfold step; simpl; auto.
Qed.

Lemma chain_sign (h : Q) (S : Q -> Prop) (R : Q * Q -> Q * Q -> Prop) :
  (forall p q, step h p q -> S (rate (snd p)) -> S (rate (snd q)) /\ R p q) ->
  forall l x, chain (step h) (x :: l) -> S (rate (snd x)) -> chain R (x :: l).
Proof.
  intros Hst l; induction l as [|y l IH]; intros x Hc Hx; simpl; [exact I|].
  destruct Hc as [Hxy Hc]. destruct (Hst x y Hxy Hx) as [Hy HR].
  split; [exact HR|]. apply IH; assumption.
Qed.

Ltac step_facts :=
  let Hv := fresh "Hv" in let Hr := fresh "Hr" in let Ht := fresh "Ht" in
  intros [p1 p2] [q1 q2] [Hv [Hr Ht]] Hs; simpl in *; subst q1 q2;
  unfold Rinc, Rdec, Qdiv; simpl; change (/ 2) with (1 # 2).

Lemma step_up_pos h : 0 < h -> forall p q, step h p q ->
  0 < rate (snd p) -> 0 < rate (snd q) /\ Rinc p q.
Proof.
  intros Hh. step_facts.
  assert (Hq : 0 < rate (p2 + h)) by nra.
  pose proof (inv_pos _ Hs); pose proof (inv_pos _ Hq).
  assert (0 < h * (/ rate p2 + / rate (p2 + h))) by (apply Qmult_lt_0_compat; lra).
  split; [exact Hq|]. split; lra.
Qed.

Lemma step_up_neg h : 0 < h -> forall p q, step h p q ->
  rate (snd p) < 0 -> rate (snd q) < 0 /\ Rdec p q.
Proof.
  intros Hh. step_facts.
  assert (Hq : rate (p2 + h) < 0) by nra.
  pose proof (inv_neg _ Hs); pose proof (inv_neg _ Hq).
  assert (h * (/ rate p2 + / rate (p2 + h)) < 0)
    by (assert (0 < h * (- (/ rate p2 + / rate (p2 + h)))) by (apply Qmult_lt_0_compat; lra); nra).
  split; [exact Hq|]. split; lra.
Qed.

Lemma step_down_pos h : h < 0 -> forall p q, step h p q ->
  0 < rate (snd p) -> 0 < rate (snd q) /\ Rinc q p.
Proof.
  intros Hh. step_facts.
  assert (Hq : 0 < rate (p2 + h)) by nra.
  pose proof (inv_pos _ Hs); pose proof (inv_pos _ Hq).
  assert (h * (/ rate p2 + / rate (p2 + h)) < 0)
    by (assert (0 < (- h) * (/ rate p2 + / rate (p2 + h))) by (apply Qmult_lt_0_compat; lra); nra).
  split; [exact Hq|]. split; lra.
Qed.

Lemma step_down_neg h : h < 0 -> forall p q, step h p q ->
  rate (snd p) < 0 -> rate (snd q) < 0 /\ Rdec q p.
Proof.
  intros Hh. step_facts.
  assert (Hq : rate (p2 + h) < 0) by nra.
  pose proof (inv_neg _ Hs); pose proof (inv_neg _ Hq).
  assert (0 < h * (/ rate p2 + / rate (p2 + h)))
    by (assert (0 < (- h) * (- (/ rate p2 + / rate (p2 + h)))) by (apply Qmult_lt_0_compat; lra); nra).
  split; [exact Hq|]. split; lra.
Qed.

Lemma integ_zero_rate f h v t : rate v == 0 -> fst (integ rate f h v t) = [].
Proof.
  intros Hz. destruct f as [|f]; simpl; [reflexivity|].
  destruct (Qltb 0 (rate v * rate (v + h))) eqn:E; [|reflexivity].
  apply Qltb_iff in E. rewrite Hz in E. lra.
Qed.

Lemma integrate_parts thr dv nsteps :
  integrate rate thr dv nsteps =
  mk_curve (rev (fst (integ rate nsteps (- dv) thr 0)) ++ (0, thr) :: fst (integ rate nsteps dv thr 0))
           (snd (integ rate nsteps (- dv) thr 0)) (snd (integ rate nsteps dv thr 0)).
Proof.
  unfold integrate.
  destruct (integ rate nsteps dv thr 0), (integ rate nsteps (- dv) thr 0); reflexivity.
Qed.

Lemma Rinc_trans a b c : Rinc a b -> Rinc b c -> Rinc a c.
Proof. unfold Rinc; intros; lra. Qed.
Lemma Rdec_trans a b c : Rdec a b -> Rdec b c -> Rdec a c.
Proof. unfold Rdec; intros; lra. Qed.

(** The two half-trajectories from the threshold: both strictly monotone
    in time, in the direction given by the sign of the rate at the
    threshold, or both empty when that rate is zero. *)
Lemma integ_halves thr dv nsteps : 0 < dv ->
  let up := fst (integ rate nsteps dv thr 0) in
  let down := fst (integ rate nsteps (- dv) thr 0) in
  (chain Rinc ((0, thr) :: up) /\ chain (fun a b => Rinc b a) ((0, thr) :: down)) \/
  (chain Rdec ((0, thr) :: up) /\ chain (fun a b => Rdec b a) ((0, thr) :: down)) \/
  (up = [] /\ down = []).
Proof.
  intros Hdv up down.
  assert (Hndv : - dv < 0) by lra.
  destruct (Q_dec 0 (rate thr)) as [[Hp|Hn]|Hz].
  - left. split.
    + apply (chain_sign dv (fun r => 0 < r) Rinc (step_up_pos dv Hdv)); [apply integ_chain|exact Hp].
    + apply (chain_sign (- dv) (fun r => 0 < r) (fun a b => Rinc b a) (step_down_pos (- dv) Hndv));
        [apply integ_chain|exact Hp].
  - right; left. split.
    + apply (chain_sign dv (fun r => r < 0) Rdec (step_up_neg dv Hdv)); [apply integ_chain|exact Hn].
    + apply (chain_sign (- dv) (fun r => r < 0) (fun a b => Rdec b a) (step_down_neg (- dv) Hndv));
        [apply integ_chain|exact Hn].
  - right; right. split; apply integ_zero_rate; symmetry; exact Hz.
Qed.

(** C2: for a positive value step, along the canonical trajectory (ordered
    by value) time is strictly increasing throughout or strictly decreasing
    throughout, so value is monotone in time and the trajectory can be
    inverted. *)
Theorem integrate_monotone (thr dv : Q) (nsteps : nat) (Hdv : 0 < dv) :
  chain Rinc (traj (integrate rate thr dv nsteps)) \/
  chain Rdec (traj (integrate rate thr dv nsteps)).
Proof.
  rewrite integrate_parts; simpl traj.
  destruct (integ_halves thr dv nsteps Hdv) as [[Hu Hd]|[[Hu Hd]|[Hu Hd]]].
  - left. apply chain_app_mid; [|exact Hu].
    apply chain_rev in Hd. exact Hd.
  - right. apply chain_app_mid; [|exact Hu].
    apply chain_rev in Hd. exact Hd.
  - left. rewrite Hu, Hd. exact I.
Qed.

(** C1: for a positive value step, the canonical trajectory contains the
    point [(0, thr)], and every point at time 0 has value exactly [thr]. *)
Theorem integrate_anchored (thr dv : Q) (nsteps : nat) (Hdv : 0 < dv) :
  In (0, thr) (traj (integrate rate thr dv nsteps)) /\
  forall t v, In (t, v) (traj (integrate rate thr dv nsteps)) -> t == 0 -> v = thr.
Proof.
  rewrite integrate_parts; simpl traj.
  split; [apply in_or_app; right; left; reflexivity|].
  intros t v Hin Ht. apply in_app_or in Hin as [Hin|[Heq|Hin]];
    [apply in_rev in Hin| inversion Heq; reflexivity|];
    destruct (integ_halves thr dv nsteps Hdv) as [[Hu Hd]|[[Hu Hd]|[Hu Hd]]].
  - pose proof (chain_head _ (fun a b c H1 H2 => Rinc_trans c b a H2 H1) _ _ Hd _ Hin) as H.
    unfold Rinc in H; simpl in H; lra.
  - pose proof (chain_head _ (fun a b c H1 H2 => Rdec_trans c b a H2 H1) _ _ Hd _ Hin) as H.
    unfold Rdec in H; simpl in H; lra.
  - rewrite Hd in Hin; destruct Hin.
  - pose proof (chain_head _ Rinc_trans _ _ Hu _ Hin) as H.
    unfold Rinc in H; simpl in H; lra.
  - pose proof (chain_head _ Rdec_trans _ _ Hu _ Hin) as H.
    unfold Rdec in H; simpl in H; lra.
  - rewrite Hu in Hin; destruct Hin.
Qed.

(** The step from grid point [j] to [j+1] is admissible: the rate is
    nonzero and of one sign across it. *)
Definition good (h v : Q) (j : nat) : Prop :=
  0 < rate (grid v h j) * rate (grid v h (S j)).

Lemma integ_shape f h v t :
  let l := fst (integ rate f h v t) in
  map snd l = map (grid v h) (seq 1 (length l)) /\
  (forall j, (j < length l)%nat -> good h v j) /\
  ((snd (integ rate f h v t) = None /\ length l = f) \/
   (snd (integ rate f h v t) = Some (grid v h (S (length l))) /\ (length l < f)%nat /\
    ~ good h v (length l))).
Proof.
  revert v t; induction f as [|f IH]; intros v t; cbn -[grid].
  - split; [reflexivity|]. split; [intros; lia|]. left; split; reflexivity.
  - destruct (Qltb 0 (rate v * rate (v + h))) eqn:E.
    + apply Qltb_iff in E.
      specialize (IH (v + h) (t + h * (/ rate v + / rate (v + h)) / 2)).
      destruct (integ rate f h (v + h) _) as [rest e]; cbn -[grid] in *.
      destruct IH as [Hm [Hg Hc]].
      unfold good in *. split; [|split].
      * f_equal. rewrite Hm, <- (seq_shift _ 1), map_map.
        apply map_ext; intros; apply grid_shift.
      * intros [|j] Hj; [exact E|].
        rewrite <- (grid_shift v h j), <- (grid_shift v h (S j)). apply Hg; lia.
      * destruct Hc as [[He Hl]|[He [Hl Hn]]]; [left; split; [exact He|lia]|].
        right. rewrite He, grid_shift. split; [reflexivity|]. split; [lia|].
        rewrite <- (grid_shift v h (length rest)), <- (grid_shift v h (S (length rest))). exact Hn.
    + cbn -[grid]. split; [reflexivity|]. split; [intros; lia|].
      right. split; [reflexivity|]. split; [lia|].
      unfold good; simpl. intros H. apply Qltb_iff in H. congruence.
Qed.

Lemma integ_trunc_iff f h v t w :
  snd (integ rate f h v t) = Some w <->
  exists k, (k < f)%nat /\ (forall j, (j < k)%nat -> good h v j) /\ ~ good h v k /\
            w = grid v h (S k).
Proof.
  destruct (integ_shape f h v t) as [_ [Hg Hc]].
  set (m := length (fst (integ rate f h v t))) in *.
  split.
  - intros Hw. destruct Hc as [[He _]|[He [Hl Hn]]]; [congruence|].
    rewrite Hw in He. inversion He; subst w.
    exists m; auto.
  - intros [k [Hk [Hpre [Hbad ->]]]].
    destruct Hc as [[He Hl]|[He [Hl Hn]]].
    + exfalso. apply Hbad, Hg. lia.
    + rewrite He. destruct (Nat.lt_total k m) as [Hlt|[Heq|Hgt]].
      * exfalso. apply Hbad, Hg, Hlt.
      * rewrite Heq; reflexivity.
      * exfalso. apply Hn, Hpre, Hgt.
Qed.

Lemma integ_values f h v t p :
  In p (fst (integ rate f h v t)) ->
  exists j, (1 <= j <= length (fst (integ rate f h v t)))%nat /\ snd p = grid v h j.
Proof.
  intros Hin. destruct (integ_shape f h v t) as [Hm _].
  apply (in_map snd) in Hin. rewrite Hm in Hin.
  apply in_map_iff in Hin as [j [Hj Hs]]. apply in_seq in Hs.
  exists j. split; [lia|symmetry; exact Hj].
Qed.

(** C3: for a positive value step, integration above (below) the threshold
    reports a truncation value exactly when, within the [nsteps] steps, it
    meets a step across which the rate is zero or changes sign; the value
    reported is the grid value reached by the first such step; and no point
    of the trajectory lies at or beyond a reported truncation value. *)
Theorem integrate_truncates (thr dv : Q) (nsteps : nat) (Hdv : 0 < dv) :
  (forall w, trunc_hi (integrate rate thr dv nsteps) = Some w <->
     exists k, (k < nsteps)%nat /\ (forall j, (j < k)%nat -> good dv thr j) /\
               ~ good dv thr k /\ w = grid thr dv (S k)) /\
  (forall w, trunc_lo (integrate rate thr dv nsteps) = Some w <->
     exists k, (k < nsteps)%nat /\ (forall j, (j < k)%nat -> good (- dv) thr j) /\
               ~ good (- dv) thr k /\ w = grid thr (- dv) (S k)) /\
  (forall w, trunc_hi (integrate rate thr dv nsteps) = Some w ->
     forall p, In p (traj (integrate rate thr dv nsteps)) -> snd p < w) /\
  (forall w, trunc_lo (integrate rate thr dv nsteps) = Some w ->
     forall p, In p (traj (integrate rate thr dv nsteps)) -> w < snd p).
Proof.
  assert (Hndv : - dv < 0) by lra.
  rewrite integrate_parts; simpl.
  split; [intros w; apply integ_trunc_iff|].
  split; [intros w; apply integ_trunc_iff|].
  destruct (integ_shape nsteps dv thr 0) as [_ [_ Hcu]].
  destruct (integ_shape nsteps (- dv) thr 0) as [_ [_ Hcd]].
  set (mu := length (fst (integ rate nsteps dv thr 0))) in *.
  set (md := length (fst (integ rate nsteps (- dv) thr 0))) in *.
  split.
  - intros w Hw p Hin.
    destruct Hcu as [[He _]|[He _]]; rewrite Hw in He; [discriminate|]. injection He as ->.
    apply in_app_or in Hin as [Hin|[<-|Hin]].
    + apply in_rev, integ_values in Hin as [j [_ ->]].
      apply (Qle_lt_trans _ (grid thr (- dv) 0)); [apply grid_ge_mono; [exact Hndv|lia]|].
      apply (grid_lt_mono thr dv 0 (S mu) Hdv); lia.
    + apply (grid_lt_mono thr dv 0 (S mu) Hdv); lia.
    + destruct (integ_values _ _ _ _ _ Hin) as [j [Hj ->]].
      apply (grid_lt_mono thr dv j (S mu) Hdv). fold mu in Hj. lia.
  - intros w Hw p Hin.
    destruct Hcd as [[He _]|[He _]]; rewrite Hw in He; [discriminate|]. injection He as ->.
    apply in_app_or in Hin as [Hin|[<-|Hin]].
    + apply in_rev, integ_values in Hin as [j [Hj ->]].
      apply (grid_gt_mono thr (- dv) j (S md) Hndv). fold md in Hj. lia.
    + apply (grid_gt_mono thr (- dv) 0 (S md) Hndv); lia.
    + destruct (integ_values _ _ _ _ _ Hin) as [j [_ ->]].
      apply (Qlt_le_trans _ (grid thr dv 0)); [|apply grid_le_mono; [exact Hdv|lia]].
      apply (grid_gt_mono thr (- dv) 0 (S md) Hndv); lia.
Qed.

End Integrator.

End SILAProofs.

(** ** Witnesses for the integrator claims *)

Module SILAWitnesses.
Import SILA SILAProofs.

(** A rate curve that is positive up to value 2 and negative above it. *)
Definition rate_ex (x : Q) : Q := if Qle_bool x 2 then 1 else -1.

Lemma half_pos : 0 < 1 # 2.
Proof. unfold Qlt; simpl; lia. Qed.

(** Witness of C1 at threshold 1, value step 1/2, 4 steps each way. *)
Lemma integrate_anchored_witness :
  0 < 1 # 2 /\
  In (0, 1) (traj (integrate rate_ex 1 (1 # 2) 4)) /\
  forall t v, In (t, v) (traj (integrate rate_ex 1 (1 # 2) 4)) -> t == 0 -> v = 1.
Proof.
  split; [exact half_pos|]. apply (integrate_anchored rate_ex 1 (1 # 2) 4 half_pos).
Defined.

(** Witness of C2 on the same input. *)
Lemma integrate_monotone_witness :
  0 < 1 # 2 /\
  (chain Rinc (traj (integrate rate_ex 1 (1 # 2) 4)) \/
   chain Rdec (traj (integrate rate_ex 1 (1 # 2) 4))).
Proof.
  split; [exact half_pos|]. apply (integrate_monotone rate_ex 1 (1 # 2) 4 half_pos).
Defined.

(** Witness of C3 on the same input, where the rate changes sign between
    the values 2 and 5/2. *)
Lemma integrate_truncates_witness :
  0 < 1 # 2 /\
  trunc_hi (integrate rate_ex 1 (1 # 2) 4) = Some (grid 1 (1 # 2) 3) /\
  (forall w, trunc_hi (integrate rate_ex 1 (1 # 2) 4) = Some w ->
     forall p, In p (traj (integrate rate_ex 1 (1 # 2) 4)) -> snd p < w).
Proof.
  split; [exact half_pos|]. split; [reflexivity|].
  apply (integrate_truncates rate_ex 1 (1 # 2) 4 half_pos).
Defined.

End SILAWitnesses.

(** ** SILA: rate sampling *)

Module RateSamplingProofs.
Import SILA.

Definition age_le (a b : obs) : Prop := age a <= age b.

Lemma insert_by_age_perm o l : Permutation (insert_by_age o l) (o :: l).
Proof.
  induction l as [|o' l IH]; simpl; [reflexivity|].
  destruct (Qle_bool (age o) (age o')); [reflexivity|].
  rewrite IH. apply perm_swap.
Qed.

Lemma sort_by_age_perm l : Permutation (sort_by_age l) l.
Proof.
  induction l as [|o l IH]; simpl; [reflexivity|].
  rewrite insert_by_age_perm, IH. reflexivity.
Qed.

Lemma insert_by_age_hd o' o l :
  HdRel age_le o' l -> age_le o' o -> HdRel age_le o' (insert_by_age o l).
Proof.
  intros Hh Ho. destruct l as [|x l]; simpl; [constructor; exact Ho|].
  destruct (Qle_bool (age o) (age x)); constructor; [exact Ho|].
  inversion Hh; assumption.
Qed.

Lemma insert_by_age_sorted o l : Sorted age_le l -> Sorted age_le (insert_by_age o l).
Proof.
  induction l as [|o' l IH]; intros Hs; simpl; [repeat constructor|].
  destruct (Qle_bool (age o) (age o')) eqn:E.
  - constructor; [exact Hs|]. constructor. apply Qle_bool_iff, E.
  - apply Sorted_inv in Hs as [Hs Hh]. constructor; [apply IH, Hs|].
    apply insert_by_age_hd; [exact Hh|].
    unfold age_le. apply Qlt_le_weak, Qnot_le_lt. intros H.
    apply Qle_bool_iff in H. congruence.
Qed.

Lemma sort_by_age_sorted l : Sorted age_le (sort_by_age l).
Proof.
  induction l as [|o l IH]; simpl; [constructor|].
  apply insert_by_age_sorted, IH.
Qed.

Lemma pair_samples_length l : length (pair_samples l) = (length l - 1)%nat.
Proof.
  induction l as [|o1 [|o2 l] IH]; simpl in *; try reflexivity.
  rewrite IH. lia.
Qed.

Lemma pair_samples_nth l k o1 o2 :
  nth_error l k = Some o1 -> nth_error l (S k) = Some o2 ->
  nth_error (pair_samples l) k = Some (pair_sample o1 o2).
Proof.
  revert k; induction l as [|x [|y l] IH]; intros k H1 H2.
  - destruct k; discriminate.
  - destruct k; simpl in H2; [discriminate|destruct k; discriminate].
  - destruct k as [|k]; simpl in *.
    + inversion H1; inversion H2; reflexivity.
    + apply IH; assumption.
Qed.

Lemma ismember_false x l : ismember x l = false <-> forall y, In y l -> ~ x == y.
Proof.
  unfold ismember. rewrite <- not_true_iff_false, existsb_exists.
  split.
  - intros H y Hy Heq. apply H. exists y. split; [exact Hy|]. apply Qeq_bool_iff, Heq.
  - intros H [y [Hy Heq]]. apply (H y Hy). apply Qeq_bool_iff, Heq.
Qed.

Lemma subjects_acc_spec seen os :
  (forall s, In s (subjects_acc seen os) -> ismember s seen = false) /\
  ForallOrdPairs (fun a b => ~ a == b) (subjects_acc seen os) /\
  (forall o, In o os -> ismember (subid o) seen = true \/
                        exists s, In s (subjects_acc seen os) /\ s == subid o).
Proof.
  revert seen; induction os as [|o os IH]; intros seen; simpl.
  - split; [tauto|]. split; [constructor|tauto].
  - destruct (ismember (subid o) seen) eqn:Em.
    + destruct (IH seen) as [H1 [H2 H3]]. split; [exact H1|]. split; [exact H2|].
      intros o' [<-|Ho']; [left; exact Em|apply H3, Ho'].
    + destruct (IH (subid o :: seen)) as [H1 [H2 H3]].
      assert (Hnew : forall s, In s (subjects_acc (subid o :: seen) os) ->
                               ~ s == subid o /\ ismember s seen = false).
      { intros s Hs. specialize (H1 s Hs). unfold ismember in H1; simpl in H1.
        apply orb_false_iff in H1 as [Ha Hb]. split; [|exact Hb].
        intros Heq. apply Qeq_bool_iff in Heq. congruence. }
      split; [|split].
      * intros s [<-|Hs]; [exact Em|apply Hnew, Hs].
      * constructor; [|exact H2]. apply Forall_forall. intros s Hs Heq.
        apply (proj1 (Hnew s Hs)). symmetry. exact Heq.
      * intros o' [<-|Ho'].
        -- right. exists (subid o). split; [left; reflexivity|reflexivity].
        -- destruct (H3 o' Ho') as [Hm|[s [Hs Heq]]].
           ++ unfold ismember in Hm; simpl in Hm. apply orb_true_iff in Hm as [Hm|Hm].
              ** right. exists (subid o). split; [left; reflexivity|].
                 apply Qeq_bool_iff in Hm. symmetry; exact Hm.
              ** left; exact Hm.
           ++ right. exists s. split; [right; exact Hs|exact Heq].
Qed.

(** C4: the pooled samples are the concatenation, over the subjects of the
    table (each listed once, every observation's subject among them), of
    each subject's samples; a subject's observations are taken in
    non-decreasing age order; the consecutive pair at positions [k],
    [k+1] of that order gives exactly the [k]-th sample, at the pair's
    midpoint value with rate [(v2 - v1) / (a2 - a1)]; a subject has one
    sample fewer than observations, so a single-observation subject has
    none. *)
Theorem rate_samples_consecutive_pairs (os : list obs) :
  rate_samples os = flat_map (subject_samples os) (subjects os) /\
  ForallOrdPairs (fun a b => ~ a == b) (subjects os) /\
  (forall o, In o os -> exists s, In s (subjects os) /\ s == subid o) /\
  forall s,
    let sorted := sort_by_age (obs_of s os) in
    Permutation sorted (obs_of s os) /\
    Sorted (fun a b => age a <= age b) sorted /\
    length (subject_samples os s) = (length (obs_of s os) - 1)%nat /\
    (forall k o1 o2, nth_error sorted k = Some o1 -> nth_error sorted (S k) = Some o2 ->
       nth_error (subject_samples os s) k =
       Some (mk_sample ((val o1 + val o2) / 2) ((val o2 - val o1) / (age o2 - age o1)))) /\
    (length (obs_of s os) = 1%nat -> subject_samples os s = []).
Proof.
  destruct (subjects_acc_spec [] os) as [_ [Hnd Hall]].
  split; [reflexivity|]. split; [exact Hnd|]. split.
  { intros o Ho. destruct (Hall o Ho) as [Hm|H]; [discriminate|exact H]. }
  intros s sorted.
  assert (Hlen : length sorted = length (obs_of s os)) by apply Permutation_length, sort_by_age_perm.
  split; [apply sort_by_age_perm|].
  split; [apply sort_by_age_sorted|].
  split; [unfold subject_samples; rewrite pair_samples_length; fold sorted; rewrite Hlen; reflexivity|].
  split.
  - intros k o1 o2 H1 H2. apply pair_samples_nth; assumption.
  - intros H1. unfold subject_samples. fold sorted.
    rewrite H1 in Hlen. destruct sorted as [|x [|y l]]; simpl in Hlen; try lia. reflexivity.
Qed.

End RateSamplingProofs.

(** ** SILA: per-subject projection *)

Module ProjectorProofs.
Import SILA.

Lemma fold_min_le xs x y : In y (x :: xs) -> fold_left Qmin xs x <= y.
Proof.
  revert x y; induction xs as [|a xs IH]; intros x y Hy; simpl.
  - destruct Hy as [<-|[]]. apply Qle_refl.
  - destruct Hy as [<-|[<-|Hy]].
    + apply (Qle_trans _ (Qmin x a)); [apply IH; left; reflexivity|apply Q.le_min_l].
    + apply (Qle_trans _ (Qmin x a)); [apply IH; left; reflexivity|apply Q.le_min_r].
    + apply IH. right. exact Hy.
Qed.

Lemma fold_max_ge xs x y : In y (x :: xs) -> y <= fold_left Qmax xs x.
Proof.
  revert x y; induction xs as [|a xs IH]; intros x y Hy; simpl.
  - destruct Hy as [<-|[]]. apply Qle_refl.
  - destruct Hy as [<-|[<-|Hy]].
    + apply (Qle_trans _ (Qmax x a)); [apply Q.le_max_l|apply IH; left; reflexivity].
    + apply (Qle_trans _ (Qmax x a)); [apply Q.le_max_r|apply IH; left; reflexivity].
    + apply IH. right. exact Hy.
Qed.

(** Interpolation only answers between two values of the trajectory. *)
Lemma interp_within tr v t :
  interp tr v = Some t ->
  exists a b, In a (map snd tr) /\ In b (map snd tr) /\ a <= v /\ v <= b.
Proof.
  induction tr as [|[t1 v1] tr IH]; simpl; [discriminate|].
  destruct tr as [|[t2 v2] tr'].
  - destruct (Qeq_bool v v1) eqn:E; [|discriminate]. intros _.
    apply Qeq_bool_iff in E. exists v1, v1.
    split; [left; reflexivity|]. split; [left; reflexivity|]. split; rewrite E; apply Qle_refl.
  - destruct (Qle_bool v1 v && Qle_bool v v2) eqn:E.
    + intros _. apply andb_true_iff in E as [E1 E2]. apply Qle_bool_iff in E1, E2.
      exists v1, v2. split; [left; reflexivity|]. split; [right; left; reflexivity|]. auto.
    + intros H. destruct (IH H) as [a [b [Ha [Hb Hab]]]].
      exists a, b. split; [right; exact Ha|]. split; [right; exact Hb|]. exact Hab.
Qed.

Lemma interp_out_of_range tr v : out_of_range tr v -> interp tr v = None.
Proof.
  unfold out_of_range, val_range. intros Hout.
  destruct (interp tr v) as [t|] eqn:E; [|reflexivity]. exfalso.
  destruct (interp_within _ _ _ E) as [a [b [Ha [Hb [Hav Hvb]]]]].
  destruct (map snd tr) as [|x xs]; [destruct Ha|].
  pose proof (fold_min_le xs x a Ha). pose proof (fold_max_ge xs x b Hb).
  destruct Hout as [Hlt|Hlt].
  - apply (Qlt_irrefl v). apply (Qlt_le_trans _ (fold_left Qmin xs x)); [exact Hlt|].
    apply (Qle_trans _ a); assumption.
  - apply (Qlt_irrefl v). apply (Qle_lt_trans _ (fold_left Qmax xs x)); [|exact Hlt].
    apply (Qle_trans _ b); assumption.
Qed.

(** C5: the projector returns one row per observation, in order, without
    failing; the row of an observation whose value lies below or above the
    trajectory's covered value range is flagged extrapolated. *)
Theorem estimate_flags_out_of_range (tr : list (Q * Q)) (os : list obs) :
  length (SILA_estimate tr os) = length os /\
  forall k o, nth_error os k = Some o -> out_of_range tr (val o) ->
    exists r, nth_error (SILA_estimate tr os) k = Some r /\
              r_subid r = subid o /\ r_age r = age o /\ r_val r = val o /\
              extrap r = true.
Proof.
  split; [apply length_map|].
  intros k o Hk Hout. exists (est_row tr os o).
  split; [unfold SILA_estimate; rewrite nth_error_map, Hk; reflexivity|].
  unfold est_row; simpl. rewrite (interp_out_of_range _ _ Hout).
  repeat split; reflexivity.
Qed.

(** C6: for an observation whose subject has exactly one observation in the
    table, its row (present in the output) has as estimated time the direct
    interpolation of the trajectory at its value, and as estimated age at
    threshold its age minus that time: no offset is fitted. *)
Theorem single_observation_direct (tr : list (Q * Q)) (os : list obs) (o : obs)
    (Ho : In o os) (H1 : length (obs_of (subid o) os) = 1%nat) :
  In (est_row tr os o) (SILA_estimate tr os) /\
  estdtt0 (est_row tr os o) = interp tr (val o) /\
  estaget0 (est_row tr os o) = option_map (fun t => age o - t) (interp tr (val o)).
Proof.
  split; [apply in_map, Ho|].
  unfold est_row; simpl.
  destruct (obs_of (subid o) os) as [|x [|y l]]; simpl in H1; try lia.
  split; reflexivity.
Qed.

Definition os_ex : list obs := [mk_obs 1 60 1; mk_obs 1 62 2; mk_obs 2 70 (3 # 2)].
Definition tr_ex : list (Q * Q) := [(-1, 1 # 2); (0, 1); (1, 3 # 2); (2, 2)].

(** Witness of C6: subject 2 has a single observation. *)
Lemma single_observation_direct_witness :
  In (mk_obs 2 70 (3 # 2)) os_ex /\
  length (obs_of 2 os_ex) = 1%nat /\
  estdtt0 (est_row tr_ex os_ex (mk_obs 2 70 (3 # 2))) = interp tr_ex (3 # 2) /\
  interp tr_ex (3 # 2) = Some (2 # 2).
Proof.
  assert (Hin : In (mk_obs 2 70 (3 # 2)) os_ex) by (right; right; left; reflexivity).
  assert (Hl : length (obs_of 2 os_ex) = 1%nat) by reflexivity.
  split; [exact Hin|]. split; [exact Hl|]. split; [|vm_compute; reflexivity].
  apply (single_observation_direct tr_ex os_ex (mk_obs 2 70 (3 # 2)) Hin Hl).
Defined.

End ProjectorProofs.

(* ========================================================================= *)
(** * Further properties of the sources *)

(** ** SILA driver: the individual case (part_000, lines 86-87) *)

Module IndividualCaseProofs.
Import SILA IndividualCase.

Lemma nth_map_lt {A B} (f : A -> B) (l : list A) i d d' :
  (i < length l)%nat -> nth i (map f l) d' = f (nth i l d).
Proof.
  revert i; induction l as [|x l IH]; intros [|i] Hi; simpl in *; try lia; auto.
  apply IH; lia.
Qed.

Lemma find_first_None {A} (p : A -> bool) l :
  find_first p l = None <-> forall x, In x l -> p x = false.
Proof.
  induction l as [|y l IH]; simpl.
  - split; [intros _ x []|reflexivity].
  - destruct (p y) eqn:Py; split.
    + discriminate.
    + intros H; rewrite (H y (or_introl eq_refl)) in Py; discriminate.
    + intros H x [<-|Hx]; [exact Py|].
      destruct (find_first p l); [discriminate|]. apply IH; auto.
    + intros H. rewrite (proj2 IH); [reflexivity|auto].
Qed.

Lemma find_first_Some {A} (p : A -> bool) l k d :
  find_first p l = Some k ->
  (k < length l)%nat /\ p (nth k l d) = true /\
  (forall j, (j < k)%nat -> p (nth j l d) = false).
Proof.
  revert k; induction l as [|y l IH]; intros k H; simpl in H; [discriminate|].
  destruct (p y) eqn:Py.
  - inversion H; subst; simpl. repeat split; [lia|exact Py|intros j Hj; lia].
  - destruct (find_first p l) as [k'|] eqn:E; simpl in H; [|discriminate].
    inversion H; subst. destruct (IH k' eq_refl) as [H1 [H2 H3]].
    simpl. repeat split; [lia|exact H2|].
    intros [|j] Hj; [exact Py|apply H3; lia].
Qed.

(** The selection fails (MATLAB raises) exactly when no row has
    [1 < estdtt0 < 10] and the table has at least two rows. *)
Theorem individual_case_error (sila_out : list estimate_row) :
  individual_case sila_out = None <->
  (forall r, In r sila_out -> in_window r = false) /\ (2 <= length sila_out)%nat.
Proof.
  unfold individual_case.
  destruct (find_first in_window sila_out) as [k|] eqn:E.
  - split; [discriminate|]. intros [H _].
    rewrite (proj2 (find_first_None in_window sila_out) H) in E. discriminate.
  - pose proof (proj1 (find_first_None in_window sila_out) E) as E'. clear E. rename E' into E.
    destruct (Nat.leb (length sila_out) 1) eqn:L;
      [apply Nat.leb_le in L | apply Nat.leb_gt in L]; split; intros H;
      try discriminate; try reflexivity; try (split; [exact E|lia]).
    destruct H; lia.
Qed.

(** A non-empty selection marks exactly the rows of one subject: the
    subject of the first row with [1 < estdtt0 < 10]. *)
Theorem individual_case_one_subject (sila_out : list estimate_row) (ids : list bool) :
  individual_case sila_out = Some ids -> ids <> [] ->
  exists k, (k < length sila_out)%nat /\
    in_window (nth k sila_out row0) = true /\
    (forall j, (j < k)%nat -> in_window (nth j sila_out row0) = false) /\
    length ids = length sila_out /\
    (forall i, (i < length sila_out)%nat ->
       (nth i ids false = true <-> r_subid (nth i sila_out row0) == r_subid (nth k sila_out row0))).
Proof.
  unfold individual_case. intros H Hne.
  destruct (find_first in_window sila_out) as [k|] eqn:E.
  - inversion H; subst ids; clear H.
    destruct (find_first_Some _ _ _ row0 E) as [H1 [H2 H3]].
    exists k. split; [exact H1|]. split; [exact H2|]. split; [exact H3|].
    split; [rewrite length_map; reflexivity|].
    intros i Hi.
    rewrite (nth_map_lt _ _ _ row0 _ Hi). apply Qeq_bool_iff.
  - destruct (Nat.leb (length sila_out) 1); inversion H; subst; congruence.
Qed.

Definition rows_ex : list estimate_row :=
  [mk_row 7 70 1 (Some (-2)) None false; mk_row 8 71 2 (Some 3) None false;
   mk_row 7 72 2 (Some 4) None false; mk_row 8 74 3 (Some 6) None false].

Lemma individual_case_one_subject_witness :
  individual_case rows_ex = Some [false; true; false; true] /\
  exists k, (k < length rows_ex)%nat /\
    in_window (nth k rows_ex row0) = true /\
    (forall j, (j < k)%nat -> in_window (nth j rows_ex row0) = false) /\
    length [false; true; false; true] = length rows_ex /\
    (forall i, (i < length rows_ex)%nat ->
       (nth i [false; true; false; true] false = true <->
        r_subid (nth i rows_ex row0) == r_subid (nth k rows_ex row0))).
Proof.
  split; [reflexivity|].
  apply (individual_case_one_subject rows_ex [false; true; false; true]);
    [reflexivity|discriminate].
Defined.

End IndividualCaseProofs.

(** ** NBS driver: edge cases of the covariates (part_001, lines 39-56) *)

Module DesignEdgeProofs.
Import Design.

Lemma length_mapi_from {A B} (f : nat -> A -> B) k l : length (mapi_from k f l) = length l.
Proof. revert k; induction l; intros k; simpl; auto. Qed.

Lemma design_indicator_length (n1 n2 : nat) :
  length (mrows (assign_rows (assign_rows (zeros (n1 + n2) 2) 0 n1 0 1) n1 (n1 + n2) 1 1))
  = (n1 + n2)%nat.
Proof. unfold assign_rows, zeros; simpl. rewrite !length_mapi_from, repeat_length; reflexivity. Qed.

Lemma vertcat_None (a b : Mat) :
  vertcat a b = None <-> is_empty a = false /\ is_empty b = false /\ ncols a <> ncols b.
Proof.
  unfold vertcat. destruct (is_empty a), (is_empty b);
    try (split; [discriminate | intros [H1 [H2 _]]; discriminate]).
  destruct (Nat.eqb (ncols a) (ncols b)) eqn:E.
  - apply Nat.eqb_eq in E. split; [discriminate|]. intros [_ [_ H]]; contradiction.
  - apply Nat.eqb_neq in E. split; [intros _; auto|reflexivity].
Qed.

(** With covariates requested but both covariate files holding [0 x 0]
    arrays, the concatenations drop them silently: the design matrix is
    the one without covariates. *)
Theorem empty_covars_ignored (corr_1 corr_2 : Arr3) (covars_1 covars_2 : Mat) :
  is_empty covars_1 = true -> is_empty covars_2 = true ->
  build_design true corr_1 corr_2 covars_1 covars_2 =
  build_design false corr_1 corr_2 covars_1 covars_2.
Proof.
  intros H1 H2. unfold build_design.
  destruct (cat3 corr_1 corr_2) as [corr|]; [|reflexivity].
  unfold vertcat at 1. rewrite H1.
  unfold horzcat. rewrite H2.
  replace (is_empty _) with false; [reflexivity|].
  unfold is_empty, assign_rows, zeros; simpl. rewrite andb_false_r; reflexivity.
Qed.

Definition corr_ex : Arr3 := mk_arr3 1 1 [[[1]]].

Lemma empty_covars_ignored_witness :
  build_design true corr_ex corr_ex (mk_mat 0 []) (mk_mat 0 []) =
  build_design false corr_ex corr_ex (mk_mat 0 []) (mk_mat 0 []).
Proof. apply empty_covars_ignored; reflexivity. Defined.

(** With covariates, building the design fails exactly when the slice
    sizes differ, when both covariate matrices are non-empty with
    different column counts, or when the stacked covariates are not
    [0 x 0] and their row count differs from the number of slices. *)
Theorem covars_design_fails (corr_1 corr_2 : Arr3) (covars_1 covars_2 : Mat) :
  build_design true corr_1 corr_2 covars_1 covars_2 = None <->
  (d1 corr_1 <> d1 corr_2 \/ d2 corr_1 <> d2 corr_2) \/
  (is_empty covars_1 = false /\ is_empty covars_2 = false /\ ncols covars_1 <> ncols covars_2) \/
  (exists covars, vertcat covars_1 covars_2 = Some covars /\ is_empty covars = false /\
     length (mrows covars) <> (length (slices corr_1) + length (slices corr_2))%nat).
Proof.
  unfold build_design.
  assert (Hcat : cat3 corr_1 corr_2 = None <-> d1 corr_1 <> d1 corr_2 \/ d2 corr_1 <> d2 corr_2).
  { unfold cat3. destruct (Nat.eqb (d1 corr_1) (d1 corr_2)) eqn:E1,
      (Nat.eqb (d2 corr_1) (d2 corr_2)) eqn:E2; simpl;
      rewrite ?Nat.eqb_eq, ?Nat.eqb_neq in E1; rewrite ?Nat.eqb_eq, ?Nat.eqb_neq in E2;
      split; intros H; try discriminate; try tauto; destruct H; contradiction. }
  destruct (cat3 corr_1 corr_2) as [corr|] eqn:C.
  2: { split; intros _; [left; apply Hcat; reflexivity|reflexivity]. }
  assert (Hd : ~ (d1 corr_1 <> d1 corr_2 \/ d2 corr_1 <> d2 corr_2)).
  { rewrite <- Hcat; discriminate. }
  set (D := assign_rows _ _ _ _ _).
  assert (HD : is_empty D = false /\
               length (mrows D) = (length (slices corr_1) + length (slices corr_2))%nat).
  { split; [unfold D, is_empty, assign_rows, zeros; simpl; apply andb_false_r|].
    apply design_indicator_length. }
  destruct HD as [HDe HDl].
  destruct (vertcat covars_1 covars_2) as [covars|] eqn:V.
  - assert (Hv : ~ (is_empty covars_1 = false /\ is_empty covars_2 = false /\
                   ncols covars_1 <> ncols covars_2)) by (rewrite <- vertcat_None; congruence).
    unfold horzcat. rewrite HDe.
    destruct (is_empty covars) eqn:Ec.
    + split; [discriminate|]. intros [H|[H|[c [Hc [He _]]]]]; try tauto. congruence.
    + rewrite HDl.
      destruct (Nat.eqb (length (slices corr_1) + length (slices corr_2)) (length (mrows covars))) eqn:El.
      * apply Nat.eqb_eq in El. split; [discriminate|].
        intros [H|[H|[c [Hc [He Hl]]]]]; try tauto. inversion Hc; subst. lia.
      * apply Nat.eqb_neq in El. split; [intros _|reflexivity].
        right; right. exists covars; repeat split; auto.
  - split; [intros _|reflexivity]. right; left. apply vertcat_None; exact V.
Qed.

End DesignEdgeProofs.

(** ** Asymmetry groups for NBS (04_pre_NBS.ipynb, cell 3) *)

Module AsymmetryGroupsProofs.
Import Pandas AsymmetryGroups.





(** *** Example *)







End AsymmetryGroupsProofs.

(** ** Export of the longitudinal data and its reading in part_000 *)

Module SILAExportProofs.
Import Pandas PyInt SILAExport.

(** Column [n] of a row of [df_ld]. *)
Definition col (cols : list string) (r : list pyval) (n : string) : pyval :=
  match index_of n cols with Some i => nth i r PNaN | None => PNaN end.

(** The row has all twelve exported columns. *)
Definition complete_row (cols : list string) (r : list pyval) : bool :=
  forallb (fun n => notna (col cols r n)) export_cols.

(** The value of a string of decimal digits. *)
Definition decimal_value (ds : list ascii) : Z :=
  fold_left (fun acc c => acc * 10 + digit_val c)%Z ds 0%Z.

Lemma export_cols_eq :
  export_cols = ["sid"; "age"; "fnc_global_left"; "fnc_temporal_meta_left";
    "fnc_early_amyloid_left"; "fnc_intermediate_amyloid_left"; "fnc_late_amyloid_left";
    "fnc_global_right"; "fnc_temporal_meta_right"; "fnc_early_amyloid_right";
    "fnc_intermediate_amyloid_right"; "fnc_late_amyloid_right"]%string.
Proof. reflexivity. Qed.

(** *** Python's [int] and [replace] on digit strings *)

Lemma digit_not_space c : is_digit c = true -> is_space c = false.
Proof.
  unfold is_digit, is_space. intros H. apply andb_true_iff in H as [H1 H2].
  apply Nat.leb_le in H1, H2.
  destruct (Nat.leb_spec 9 (nat_of_ascii c)), (Nat.leb_spec (nat_of_ascii c) 13),
    (Nat.leb_spec 28 (nat_of_ascii c)), (Nat.leb_spec (nat_of_ascii c) 32);
    simpl; try reflexivity; lia.
Qed.

Lemma digit_neq c d : is_digit c = true -> is_digit d = false -> Ascii.eqb c d = false.
Proof.
  intros Hc Hd. destruct (Ascii.eqb c d) eqn:E; [|reflexivity].
  apply Ascii.eqb_eq in E; subst; congruence.
Qed.

Lemma digit_neq_l c d : is_digit c = true -> is_digit d = false -> Ascii.eqb d c = false.
Proof.
  intros Hc Hd. destruct (Ascii.eqb d c) eqn:E; [|reflexivity].
  apply Ascii.eqb_eq in E; subst; congruence.
Qed.

Lemma lstrip_digits l : forallb is_digit l = true -> lstrip l = l.
Proof.
  destruct l as [|c r]; simpl; [reflexivity|].
  intros H; apply andb_true_iff in H as [H _]. rewrite digit_not_space by exact H; reflexivity.
Qed.

Lemma forallb_rev {A} (p : A -> bool) l : forallb p (rev l) = forallb p l.
Proof.
  induction l as [|x l IH]; simpl; [reflexivity|].
  rewrite forallb_app, IH; simpl. rewrite andb_true_r, andb_comm; reflexivity.
Qed.

Lemma strip_digits l : forallb is_digit l = true -> strip l = l.
Proof.
  intros H. unfold strip. rewrite (lstrip_digits l H).
  rewrite lstrip_digits by (rewrite forallb_rev; exact H). apply rev_involutive.
Qed.

Lemma int_digits_digits l acc :
  forallb is_digit l = true ->
  int_digits l acc = Some (fold_left (fun acc c => acc * 10 + digit_val c)%Z l acc).
Proof.
  revert acc; induction l as [|c r IH]; intros acc H; simpl in *; [reflexivity|].
  apply andb_true_iff in H as [Hc Hr]. rewrite Hc. apply IH; exact Hr.
Qed.

Lemma digit_val_nonneg c : is_digit c = true -> (0 <= digit_val c)%Z.
Proof.
  unfold is_digit, digit_val. intros H. apply andb_true_iff in H as [H _].
  apply Nat.leb_le in H. lia.
Qed.

Lemma fold_digits_nonneg l acc :
  forallb is_digit l = true -> (0 <= acc)%Z ->
  (0 <= fold_left (fun acc c => acc * 10 + digit_val c)%Z l acc)%Z.
Proof.
  revert acc; induction l as [|c r IH]; intros acc H Ha; simpl in *; [exact Ha|].
  apply andb_true_iff in H as [Hc Hr]. apply IH; [exact Hr|].
  pose proof (digit_val_nonneg c Hc). lia.
Qed.

Lemma replace_BF_digits fuel l :
  forallb is_digit l = true ->
  replace_aux fuel ["B"; "F"]%char [] l = l.
Proof.
  revert fuel; induction l as [|c r IH]; intros [|fuel] H; try reflexivity.
  simpl in H. apply andb_true_iff in H as [Hc Hr].
  cbn [replace_aux prefixb]. rewrite (digit_neq_l c "B"%char Hc eq_refl).
  cbn [andb app]. rewrite IH by exact Hr; reflexivity.
Qed.

(** A subject id [BF] followed by decimal digits becomes the number the
    digits denote, as long as it fits in 64 bits. *)
Theorem sid_BF_digits (ds : list ascii) :
  ds <> [] -> forallb is_digit ds = true -> (decimal_value ds < 2 ^ 63)%Z ->
  conv_sid (PStr (string_of_list_ascii ("B" :: "F" :: ds)%char)) = Some (decimal_value ds).
Proof.
  intros Hne Hd Hlt. unfold conv_sid, str_replace.
  rewrite list_ascii_of_string_of_list_ascii. simpl length.
  change (list_ascii_of_string "BF") with ["B"; "F"]%char.
  change (list_ascii_of_string "") with (@nil ascii).
  cbv iota beta.
  change (replace_aux (S (S (length ds))) ["B"; "F"]%char [] ("B" :: "F" :: ds)%char)
    with (replace_aux (S (length ds)) ["B"; "F"]%char [] ds).
  rewrite replace_BF_digits by exact Hd.
  unfold py_int. rewrite list_ascii_of_string_of_list_ascii, strip_digits by exact Hd.
  destruct ds as [|c r]; [congruence|].
  simpl in Hd. apply andb_true_iff in Hd as [Hc Hr].
  rewrite (digit_neq c "-"%char Hc eq_refl), (digit_neq c "+"%char Hc eq_refl).
  unfold int_body. rewrite Hc, int_digits_digits by exact Hr.
  unfold decimal_value in *. simpl in Hlt |- *.
  unfold astype_int.
  pose proof (fold_digits_nonneg r (digit_val c) Hr (digit_val_nonneg c Hc)).
  destruct (Z.leb_spec (- 2 ^ 63) (fold_left (fun acc c => acc * 10 + digit_val c)%Z r (digit_val c)));
    [|lia].
  destruct (Z.ltb_spec (fold_left (fun acc c => acc * 10 + digit_val c)%Z r (digit_val c)) (2 ^ 63));
    [reflexivity|lia].
Qed.

Lemma sid_BF_digits_witness :
  conv_sid (PStr (string_of_list_ascii ("B" :: "F" :: ["0"; "4"; "2"])%char)) = Some 42%Z.
Proof. apply (sid_BF_digits ["0"; "4"; "2"]%char); [discriminate|reflexivity|reflexivity]. Defined.


(** *** The export and the loader together *)

Lemma indices_of_absent x l k : ~ In x l -> indices_of x l k = [].
Proof.
  revert k; induction l as [|y l IH]; intros k H; simpl; [reflexivity|].
  destruct (String.eqb x y) eqn:E.
  - apply String.eqb_eq in E; subst. exfalso; apply H; left; reflexivity.
  - apply IH. intros Hx; apply H; right; exact Hx.
Qed.

Lemma indices_of_nodup x l k i :
  NoDup l -> index_of x l = Some i -> indices_of x l k = [(k + i)%nat].
Proof.
  revert k i; induction l as [|y l IH]; intros k i Hnd H; simpl in *; [discriminate|].
  inversion Hnd as [|? ? Hy Hnd']; subst.
  destruct (String.eqb x y) eqn:E.
  - apply String.eqb_eq in E; subst. inversion H; subst.
    rewrite indices_of_absent by exact Hy. f_equal; lia.
  - destruct (index_of x l) as [j|] eqn:Ej; simpl in H; [|discriminate].
    inversion H; subst. rewrite (IH (S k) j Hnd' eq_refl). f_equal; lia.
Qed.

Lemma index_of_In x l : In x l -> exists i, index_of x l = Some i.
Proof.
  induction l as [|y l IH]; simpl; [intros []|]. intros [<-|H].
  - rewrite String.eqb_refl; eauto.
  - destruct (String.eqb x y); [eauto|]. destruct (IH H) as [i Hi]; rewrite Hi; simpl; eauto.
Qed.

Lemma index_of_nth x l i d : index_of x l = Some i -> nth i l d = x.
Proof.
  revert i; induction l as [|y l IH]; intros i H; simpl in H; [discriminate|].
  destruct (String.eqb x y) eqn:E.
  - inversion H; subst. apply String.eqb_eq in E; subst; reflexivity.
  - destruct (index_of x l) as [j|] eqn:Ej; simpl in H; [|discriminate].
    inversion H; subst; simpl. apply IH; reflexivity.
Qed.

Lemma mapM_option_ext {A B} (f g : A -> option B) l :
  (forall x, In x l -> f x = g x) -> mapM_option f l = mapM_option g l.
Proof.
  induction l as [|x l IH]; intros H; simpl; [reflexivity|].
  rewrite (H x (or_introl eq_refl)), IH by (intros; apply H; right; assumption).
  reflexivity.
Qed.

Lemma mapM_option_map_fun {A B C} (f : B -> option C) (g : A -> B) l :
  mapM_option f (map g l) = mapM_option (fun x => f (g x)) l.
Proof. induction l as [|x l IH]; simpl; [reflexivity|]. rewrite IH; reflexivity. Qed.

Lemma mapM_option_all {A B} (f : A -> option B) (d : B) l :
  (forall x, In x l -> f x <> None) ->
  mapM_option f l = Some (map (fun x => match f x with Some y => y | None => d end) l).
Proof.
  induction l as [|x l IH]; intros H; simpl; [reflexivity|].
  destruct (f x) as [y|] eqn:Fx; [|exfalso; apply (H x (or_introl eq_refl)); exact Fx].
  rewrite IH by (intros; apply H; right; assumption). reflexivity.
Qed.

Lemma mapM_option_None_intro {A B} (f : A -> option B) l x :
  In x l -> f x = None -> mapM_option f l = None.
Proof.
  induction l as [|y l IH]; simpl; [intros []|]. intros [<-|Hx] Hf.
  - rewrite Hf; reflexivity.
  - destruct (f y); [|reflexivity]. rewrite (IH Hx Hf); reflexivity.
Qed.

Lemma combine_map_same {A B C} (g : A -> B) (h : A -> C) l :
  combine (map g l) (map h l) = map (fun x => (g x, h x)) l.
Proof. induction l as [|x l IH]; simpl; [reflexivity|]. rewrite IH; reflexivity. Qed.

Lemma filter_all_true {A} (p : A -> bool) l : (forall x, In x l -> p x = true) -> filter p l = l.
Proof.
  induction l as [|x l IH]; intros H; simpl; [reflexivity|].
  rewrite (H x (or_introl eq_refl)), IH by (intros; apply H; right; assumption). reflexivity.
Qed.

Lemma filter_ext_in_eq {A} (p q : A -> bool) l :
  (forall x, In x l -> p x = q x) -> filter p l = filter q l.
Proof.
  induction l as [|x l IH]; intros H; simpl; [reflexivity|].
  rewrite (H x (or_introl eq_refl)), IH by (intros; apply H; right; assumption). reflexivity.
Qed.

Lemma forallb_map_fun {A B} (p : B -> bool) (f : A -> B) l :
  forallb p (map f l) = forallb (fun x => p (f x)) l.
Proof. induction l as [|x l IH]; simpl; [reflexivity|]. rewrite IH; reflexivity. Qed.

Lemma concat_singletons {A B} (f : A -> B) l : concat (map (fun x => [f x]) l) = map f l.
Proof. induction l as [|x l IH]; simpl; [reflexivity|]. rewrite IH; reflexivity. Qed.

(** [df[names]] on a frame with distinct column names holding all the
    names. *)
Lemma select_cols_ok (f : frame) (names : list string) :
  NoDup (columns f) -> (forall n, In n names -> In n (columns f)) ->
  select_cols f names =
  Some (mk_frame names (map (fun r => map (col (columns f) r) names) (rows f))).
Proof.
  intros Hnd Hin. unfold select_cols.
  set (idx := fun n => match index_of n (columns f) with Some i => i | None => 0%nat end).
  assert (Hidx : forall n, In n names -> index_of n (columns f) = Some (idx n)).
  { intros n Hn. destruct (index_of_In n (columns f) (Hin n Hn)) as [i Hi].
    unfold idx; rewrite Hi; reflexivity. }
  rewrite (mapM_option_ext _ (fun n => Some [idx n])).
  2: { intros n Hn. rewrite (indices_of_nodup n (columns f) 0 (idx n) Hnd (Hidx n Hn)).
       reflexivity. }
  rewrite (mapM_option_all _ [] names) by (intros; discriminate).
  change (map (fun x => match Some [idx x] with Some y => y | None => [] end) names)
    with (map (fun x => [idx x]) names).
  rewrite concat_singletons. f_equal. f_equal.
  - rewrite map_map. rewrite <- (map_id names) at 2. apply map_ext_in.
    intros n Hn. apply index_of_nth. apply Hidx; exact Hn.
  - apply map_ext. intros r. rewrite map_map. apply map_ext_in. intros n Hn.
    unfold col. rewrite (Hidx n Hn). reflexivity.
Qed.

Lemma load_exported (rs : list (list pyval)) :
  Loader.load_data (csv_roundtrip (mk_frame export_cols rs)) "fnc_late_amyloid_right" =
  Some (Loader.delete_rows (rmmissing (mk_table ["subid"; "age"; "val"]%string
    (map (fun r => map (fun i => nth i r None) [0; 1; 11]%nat) (map (map to_cell) rs))))).
Proof. reflexivity. Qed.

Lemma export_row (cols : list string) (r : list pyval) (z : Z) :
  map (fun i => nth i (map to_cell (Design.set_nth 0 (PNum (inject_Z z))
                                     (map (col cols r) export_cols))) None) [0; 1; 11]%nat =
  [Some (inject_Z z); to_cell (col cols r "age"); to_cell (col cols r "fnc_late_amyloid_right")].
Proof. rewrite export_cols_eq. reflexivity. Qed.

(** The table SILA is run on, computed from the notebook's [df_ld]: a row
    of [df_ld] reaches it iff all twelve exported columns are present (not
    only the three SILA reads) and its converted subject id is not
    denylisted; it then carries the converted id, the age and the value.
    This holds when the column names are distinct, all twelve columns
    exist, and every complete row has a convertible subject id and
    numbers in the other exported columns. *)
Theorem export_then_load (df_ld : frame) :
  NoDup (columns df_ld) ->
  (forall n, In n export_cols -> In n (columns df_ld)) ->
  (forall r, In r (rows df_ld) -> complete_row (columns df_ld) r = true ->
     conv_sid (col (columns df_ld) r "sid") <> None /\
     (forall n, In n (tl export_cols) -> is_str (col (columns df_ld) r n) = false)) ->
  sila_input df_ld =
  Some (mk_table ["subid"; "age"; "val"]%string
    (map (fun r => [option_map inject_Z (conv_sid (col (columns df_ld) r "sid"));
                    to_cell (col (columns df_ld) r "age");
                    to_cell (col (columns df_ld) r "fnc_late_amyloid_right")])
      (filter (fun r => complete_row (columns df_ld) r &&
                 match conv_sid (col (columns df_ld) r "sid") with
                 | Some z => negb (ismember (inject_Z z) Loader.denylist)
                 | None => false
                 end) (rows df_ld)))).
Proof.
  intros Hnd Hcols Hok.
  set (cols := columns df_ld) in *.
  set (g := fun r => map (col cols r) export_cols).
  set (L := filter (complete_row cols) (rows df_ld)).
  set (zsid := fun r => match conv_sid (col cols r "sid") with Some z => z | None => 0%Z end).
  assert (HL : forall r, In r L -> In r (rows df_ld) /\ complete_row cols r = true)
    by (intros r Hr; apply filter_In in Hr; exact Hr).
  assert (Hz : forall r, In r L -> conv_sid (col cols r "sid") = Some (zsid r)).
  { intros r Hr. destruct (HL r Hr) as [H1 H2]. destruct (Hok r H1 H2) as [H3 _].
    unfold zsid. destruct (conv_sid _); [reflexivity|congruence]. }
  unfold sila_input, export_ld.
  rewrite (select_cols_ok df_ld export_cols Hnd Hcols). fold cols. cbv zeta.
  unfold dropna; cbn [columns rows].
  rewrite filter_map_comm.
  rewrite (filter_ext_eq (fun x => forallb notna (map (col cols x) export_cols))
             (complete_row cols)) by (intros x; apply forallb_map_fun).
  fold L.
  replace (col_index _ "sid") with (Some 0%nat) by reflexivity.
  cbn [columns rows].
  rewrite mapM_option_map_fun.
  rewrite (mapM_option_ext _ (fun r => conv_sid (col cols r "sid")))
    by (intros r _; rewrite export_cols_eq; reflexivity).
  rewrite (mapM_option_all _ 0%Z L) by (intros r Hr; rewrite (Hz r Hr); discriminate).
  fold zsid. rewrite combine_map_same, map_map. cbn [fst snd].
  rewrite load_exported. f_equal.
  rewrite !map_map.
  rewrite (map_ext (fun x => map (fun i => nth i (map to_cell (Design.set_nth 0
             (PNum (inject_Z (zsid x))) (map (col cols x) export_cols))) None) [0; 1; 11]%nat)
           (fun x => [Some (inject_Z (zsid x)); to_cell (col cols x "age");
                      to_cell (col cols x "fnc_late_amyloid_right")]))
    by (intros x; apply export_row).
  unfold rmmissing, Loader.delete_rows; cbn [vars data]. f_equal.
  rewrite (filter_all_true (fun r : list cell => forallb (fun c : cell => if c then true else false) r)).
  2: { intros c Hc. apply in_map_iff in Hc as [r [<- Hr]].
       destruct (HL r Hr) as [H1 H2]. destruct (Hok r H1 H2) as [_ H4].
       unfold complete_row in H2. rewrite forallb_forall in H2.
       assert (Ha := H2 "age"%string ltac:(rewrite export_cols_eq; simpl; tauto)).
       assert (Hv := H2 "fnc_late_amyloid_right"%string
                      ltac:(rewrite export_cols_eq; simpl; tauto)).
       assert (Ha' := H4 "age"%string ltac:(rewrite export_cols_eq; simpl; tauto)).
       assert (Hv' := H4 "fnc_late_amyloid_right"%string
                      ltac:(rewrite export_cols_eq; simpl; tauto)).
       fold cols in Ha, Hv, Ha', Hv'.
       destruct (col cols r "age"), (col cols r "fnc_late_amyloid_right");
         simpl in *; try discriminate; reflexivity. }
  rewrite filter_map_comm. unfold L. rewrite filter_filter_andb.
  rewrite (filter_ext_in_eq _ (fun r => complete_row cols r &&
                 match conv_sid (col cols r "sid") with
                 | Some z => negb (ismember (inject_Z z) Loader.denylist)
                 | None => false
                 end)).
  2: { intros r Hr. destruct (complete_row cols r) eqn:Hc; [|reflexivity].
       simpl. destruct (Hok r Hr Hc) as [H3 _]. unfold zsid.
       destruct (conv_sid _); [reflexivity|congruence]. }
  apply map_ext_in. intros r Hr. apply filter_In in Hr as [_ Hr].
  apply andb_true_iff in Hr as [_ Hm]. unfold zsid.
  destruct (conv_sid (col cols r "sid")); [reflexivity|discriminate].
Qed.

(** Exporting fails ([KeyError]) when one of the twelve columns is
    missing from [df_ld]. *)
Theorem export_missing_column (df_ld : frame) (n : string) :
  In n export_cols -> ~ In n (columns df_ld) -> export_ld df_ld = None.
Proof.
  intros Hn Hm. unfold export_ld, select_cols.
  rewrite (mapM_option_None_intro _ export_cols n Hn); [reflexivity|].
  rewrite indices_of_absent by exact Hm. reflexivity.
Qed.

(** Exporting fails as a whole when a row that survives [dropna] has a
    subject id [astype(int)] cannot convert. *)
Theorem export_bad_sid (df_ld : frame) (r : list pyval) :
  NoDup (columns df_ld) ->
  (forall n, In n export_cols -> In n (columns df_ld)) ->
  In r (rows df_ld) -> complete_row (columns df_ld) r = true ->
  conv_sid (col (columns df_ld) r "sid") = None ->
  export_ld df_ld = None.
Proof.
  intros Hnd Hcols Hr Hc Hs. unfold export_ld.
  rewrite (select_cols_ok df_ld export_cols Hnd Hcols). cbv zeta.
  unfold dropna; cbn [columns rows].
  replace (col_index _ "sid") with (Some 0%nat) by reflexivity.
  cbn [rows].
  rewrite (mapM_option_None_intro _ _ (map (col (columns df_ld) r) export_cols)); [reflexivity| |].
  - apply filter_In. split; [apply (in_map (fun x => map (col (columns df_ld) x) export_cols)); exact Hr|].
    rewrite forallb_map_fun. exact Hc.
  - rewrite export_cols_eq in *. exact Hs.
Qed.

(** *** Examples *)

Definition ld_row (sid : string) (age g v : pyval) : list pyval :=
  [PStr sid; age; g; PNum 1; PNum 1; PNum 1; PNum 1;
   PNum 1; PNum 1; PNum 1; PNum 1; v].

Definition ld_ex : frame :=
  mk_frame export_cols
    [ld_row "BF12" (PNum 70) (PNum 1) (PNum 3);
     ld_row "BF15" (PNum 71) PNaN (PNum 4);
     ld_row "BF2204" (PNum 72) (PNum 1) (PNum 5)]%string.

Lemma export_cols_NoDup : NoDup export_cols.
Proof. rewrite export_cols_eq. repeat constructor; simpl; intuition discriminate. Qed.

Lemma export_then_load_witness :
  sila_input ld_ex = Some (mk_table ["subid"; "age"; "val"]%string [[Some 12; Some 70; Some 3]]).
Proof.
  rewrite (export_then_load ld_ex export_cols_NoDup (fun n H => H)).
  - vm_compute. reflexivity.
  - intros r Hr Hc. simpl in Hr.
    destruct Hr as [<-|[<-|[<-|[]]]]; try (vm_compute in Hc; discriminate);
      (split; [vm_compute; discriminate|]);
      intros n Hn; rewrite export_cols_eq in Hn; simpl in Hn;
      repeat (destruct Hn as [<-|Hn]; [reflexivity|]); contradiction.
Defined.

Definition ld_missing : frame :=
  mk_frame (removelast export_cols)
    [removelast (ld_row "BF12" (PNum 70) (PNum 1) (PNum 3))]%string.

Lemma export_missing_column_witness : export_ld ld_missing = None.
Proof.
  apply (export_missing_column ld_missing "fnc_late_amyloid_right"%string).
  - rewrite export_cols_eq. simpl. tauto.
  - vm_compute. intuition discriminate.
Defined.

Definition ld_bad : frame :=
  mk_frame export_cols
    [ld_row "BF12" (PNum 70) (PNum 1) (PNum 3);
     ld_row "BF 1_2x" (PNum 71) (PNum 1) (PNum 4)]%string.

Lemma export_bad_sid_witness : export_ld ld_bad = None.
Proof.
  apply (export_bad_sid ld_bad (ld_row "BF 1_2x" (PNum 71) (PNum 1) (PNum 4))%string
           export_cols_NoDup (fun n H => H)).
  - simpl. tauto.
  - vm_compute. reflexivity.
  - vm_compute. reflexivity.
Defined.

End SILAExportProofs.

(** ** Sample selection for the amyloid cut-offs (06_pre_SILA.ipynb, cell 3) *)

Module SampleSelectionProofs.
Import Pandas SampleSelection.

(** Column [n] of a row of [df_bf2]. *)
Definition val_at (f : frame) (n : string) (r : list pyval) : pyval :=
  match col_index f n with Some k => nth k r PNaN | None => PNaN end.

(** The row passes the three row filters of the selection. *)
Definition eligible (f : frame) (r : list pyval) : bool :=
  negb (is_one (val_at f "excluded" r)) &&
  isin_str (val_at f "diagnosis_baseline_variable" r) diagnoses &&
  gt50 (val_at f "age" r).

(** *** Group keys *)

Lemma key_eqb_sym a b : key_eqb a b = key_eqb b a.
Proof.
  destruct a as [x|s|], b as [y|t|]; simpl; try reflexivity.
  - destruct (Qeq_bool x y) eqn:E, (Qeq_bool y x) eqn:E'; try reflexivity.
    + apply Qeq_bool_iff, Qeq_sym, Qeq_bool_iff in E. congruence.
    + apply Qeq_bool_iff, Qeq_sym, Qeq_bool_iff in E'. congruence.
  - apply String.eqb_sym.
Qed.

Lemma key_eqb_trans a b c : key_eqb a b = true -> key_eqb b c = true -> key_eqb a c = true.
Proof.
  destruct a as [x|s|], b as [y|t|], c as [z|u|]; simpl; try discriminate.
  - rewrite !Qeq_bool_iff. apply Qeq_trans.
  - rewrite !String.eqb_eq. congruence.
Qed.

Lemma key_eqb_refl a : notna a = true -> key_eqb a a = true.
Proof.
  destruct a as [x|s|]; simpl; try discriminate; intros _.
  - apply Qeq_bool_iff, Qeq_refl.
  - apply String.eqb_refl.
Qed.

Lemma key_eqb_notna a b : key_eqb a b = true -> notna a = true /\ notna b = true.
Proof. destruct a, b; simpl; try discriminate; auto. Qed.

Lemma existsb_false_all {A} (p : A -> bool) l : existsb p l = false -> forall x, In x l -> p x = false.
Proof.
  induction l as [|y l IH]; simpl; [intros _ _ []|].
  intros H x [<-|Hx]; apply orb_false_iff in H as [H1 H2]; auto.
Qed.

Lemma distinct_keys_in k l : In k (distinct_keys l) -> In k l.
Proof.
  induction l as [|x l IH]; simpl; [tauto|].
  destruct (existsb (key_eqb x) l); simpl; [intros H; right; auto|].
  intros [<-|H]; [left; reflexivity|right; auto].
Qed.

Lemma distinct_keys_cover x l :
  In x l -> notna x = true -> exists k, In k (distinct_keys l) /\ key_eqb k x = true.
Proof.
  revert x; induction l as [|y l IH]; intros x Hx Hn; simpl in *; [contradiction|].
  destruct (existsb (key_eqb y) l) eqn:E.
  - destruct Hx as [<-|Hx]; [|apply IH; assumption].
    apply existsb_exists in E as [z [Hz Hyz]].
    destruct (IH z Hz (proj2 (key_eqb_notna _ _ Hyz))) as [k [Hk Hkz]].
    exists k; split; [exact Hk|]. rewrite key_eqb_sym in Hyz. eapply key_eqb_trans; eauto.
  - destruct Hx as [<-|Hx].
    + exists y; split; [left; reflexivity|apply key_eqb_refl; exact Hn].
    + destruct (IH x Hx Hn) as [k [Hk Hkx]]. exists k; split; [right|]; assumption.
Qed.

Lemma distinct_keys_pairs l :
  ForallOrdPairs (fun a b => key_eqb a b = false) (distinct_keys l).
Proof.
  induction l as [|x l IH]; simpl; [constructor|].
  destruct (existsb (key_eqb x) l) eqn:E; [exact IH|].
  constructor; [|exact IH].
  apply Forall_forall. intros y Hy. apply distinct_keys_in in Hy.
  exact (existsb_false_all _ _ E y Hy).
Qed.

Lemma insert_by_perm {A} (le : A -> A -> bool) x l : Permutation (insert_by le x l) (x :: l).
Proof.
  induction l as [|y l IH]; simpl; [constructor; constructor|].
  destruct (le x y); [reflexivity|].
  rewrite IH. apply perm_swap.
Qed.

Lemma sort_by_perm {A} (le : A -> A -> bool) l : Permutation (sort_by le l) l.
Proof.
  induction l as [|x l IH]; simpl; [constructor|].
  rewrite insert_by_perm. constructor; exact IH.
Qed.

Lemma Forall_perm_in {A} (P : A -> Prop) l l' : Permutation l l' -> Forall P l -> Forall P l'.
Proof.
  intros Hp H. apply Forall_forall. intros x Hx.
  rewrite Forall_forall in H. apply H. apply (Permutation_in x (Permutation_sym Hp) Hx).
Qed.

Lemma ForallOrdPairs_perm {A} (R : A -> A -> Prop) l l' :
  (forall a b, R a b -> R b a) -> Permutation l l' -> ForallOrdPairs R l -> ForallOrdPairs R l'.
Proof.
  intros Hsym Hp. induction Hp as [|x l l' Hp IH|x y l|l l' l'' H1 IH1 H2 IH2]; intros H.
  - exact H.
  - inversion H; subst. constructor; [eapply Forall_perm_in; eauto|auto].
  - inversion H as [|? ? Hy Hl]; subst. inversion Hl as [|? ? Hx Hl']; subst.
    inversion Hy as [|? ? Hyx Hyl]; subst.
    constructor; [constructor; [apply Hsym; exact Hyx|exact Hx]|constructor; assumption].
  - auto.
Qed.

Lemma sorted_keys_spec l ks :
  sorted_keys l = Some ks ->
  (forall k, In k ks -> In k l /\ notna k = true) /\
  (forall x, In x l -> notna x = true -> exists k, In k ks /\ key_eqb k x = true) /\
  ForallOrdPairs (fun a b => key_eqb a b = false) ks.
Proof.
  unfold sorted_keys. destruct (_ || _); [|discriminate]. intros H; inversion H; subst; clear H.
  set (d := distinct_keys (filter notna l)).
  assert (Hp : Permutation (sort_by key_leb d) d) by apply sort_by_perm.
  split; [|split].
  - intros k Hk. apply (Permutation_in k Hp), distinct_keys_in, filter_In in Hk. exact Hk.
  - intros x Hx Hn. destruct (distinct_keys_cover x (filter notna l)) as [k [Hk Hkx]];
      [apply filter_In; auto|exact Hn|].
    exists k; split; [apply (Permutation_in k (Permutation_sym Hp)); exact Hk|exact Hkx].
  - apply (ForallOrdPairs_perm _ d); [|apply Permutation_sym; exact Hp|apply distinct_keys_pairs].
    intros a b H; rewrite key_eqb_sym; exact H.
Qed.

(** *** The first visit of a group *)

Lemma fold_min_spec (kv : nat) cs b vb :
  nth kv b PNaN = PNum vb ->
  let r := fold_left (fun b r =>
              match nth kv r PNaN, nth kv b PNaN with
              | PNum x, PNum y => if Qle_bool y x then b else r
              | _, _ => b
              end) cs b in
  (r = b \/ In r cs) /\
  exists v, nth kv r PNaN = PNum v /\ v <= vb /\
    forall x, In x cs -> forall vx, nth kv x PNaN = PNum vx -> v <= vx.
Proof.
  revert b vb; induction cs as [|c cs IH]; intros b vb Hb; simpl.
  - split; [left; reflexivity|]. exists vb; repeat split; [exact Hb|apply Qle_refl|].
    intros x [].
  - rewrite Hb. destruct (nth kv c PNaN) as [vc| |] eqn:Hc.
    + destruct (Qle_bool vb vc) eqn:Hle.
      * destruct (IH b vb Hb) as [Hin [v [Hv [Hvb Hmin]]]].
        split; [destruct Hin; [left|right; right]; assumption|].
        exists v; repeat split; [exact Hv|exact Hvb|].
        intros x [<-|Hx] vx Hx'; [|exact (Hmin x Hx vx Hx')].
        rewrite Hc in Hx'; inversion Hx'; subst.
        apply Qle_bool_iff in Hle. apply (Qle_trans _ vb); assumption.
      * assert (Hlt : vc < vb) by (apply Qnot_le_lt; intros H; apply Qle_bool_iff in H; congruence).
        destruct (IH c vc Hc) as [Hin [v [Hv [Hvc Hmin]]]].
        split; [destruct Hin as [->|Hin]; right; [left; reflexivity|right; exact Hin]|].
        exists v; repeat split; [exact Hv|apply (Qle_trans _ vc); [exact Hvc|apply Qlt_le_weak; exact Hlt]|].
        intros x [<-|Hx] vx Hx'; [|exact (Hmin x Hx vx Hx')].
        rewrite Hc in Hx'; inversion Hx'; subst. exact Hvc.
    + destruct (IH b vb Hb) as [Hin [v [Hv [Hvb Hmin]]]].
      split; [destruct Hin; [left|right; right]; assumption|].
      exists v; repeat split; [exact Hv|exact Hvb|].
      intros x [<-|Hx] vx Hx'; [congruence|exact (Hmin x Hx vx Hx')].
    + destruct (IH b vb Hb) as [Hin [v [Hv [Hvb Hmin]]]].
      split; [destruct Hin; [left|right; right]; assumption|].
      exists v; repeat split; [exact Hv|exact Hvb|].
      intros x [<-|Hx] vx Hx'; [congruence|exact (Hmin x Hx vx Hx')].
Qed.

Lemma first_min_spec kv rs r :
  first_min kv rs = Some r ->
  In r rs /\ exists v, nth kv r PNaN = PNum v /\
    forall r', In r' rs -> forall v', nth kv r' PNaN = PNum v' -> v <= v'.
Proof.
  unfold first_min. destruct (existsb _ rs) eqn:Es; [discriminate|].
  pose proof (existsb_false_all _ _ Es) as Hns.
  destruct (filter (fun r => notna (nth kv r PNaN)) rs) as [|c cs] eqn:F; [discriminate|].
  intros H; inversion H as [Hr]; clear H.
  assert (Hc : In c rs /\ notna (nth kv c PNaN) = true).
  { apply (proj1 (filter_In (fun r => notna (nth kv r PNaN)) c rs)). rewrite F; left; reflexivity. }
  destruct Hc as [Hcin Hcn].
  destruct (nth kv c PNaN) as [vc|s|] eqn:Hvc; simpl in Hcn; try discriminate.
  2: { exfalso. pose proof (Hns c Hcin) as Hs. cbv beta in Hs. rewrite Hvc in Hs.
       discriminate Hs. }
  destruct (fold_min_spec kv cs c vc Hvc) as [Hin [v [Hv [Hvle Hmin]]]].
  rewrite Hr in Hin, Hv |- *. split.
  - destruct Hin as [Hrc|Hin]; [rewrite Hrc; exact Hcin|].
    assert (Hf : In r (c :: cs)) by (right; exact Hin).
    rewrite <- F in Hf. apply filter_In in Hf; apply Hf.
  - exists v; split; [exact Hv|]. intros r' Hr' v' Hv'.
    assert (Hf : In r' (c :: cs)).
    { rewrite <- F. apply filter_In; split; [exact Hr'|rewrite Hv'; reflexivity]. }
    destruct Hf as [<-|Hf]; [rewrite Hvc in Hv'; inversion Hv'; subst; exact Hvle|].
    apply (Hmin r' Hf v' Hv').
Qed.

(** *** The selection *)

Lemma mapM_option_Forall2 {A B} (f : A -> option B) l ys :
  mapM_option f l = Some ys -> Forall2 (fun x y => f x = Some y) l ys.
Proof.
  revert ys; induction l as [|x l IH]; intros ys H; simpl in H.
  - inversion H; constructor.
  - destruct (f x) as [y|] eqn:Fx; [|discriminate].
    destruct (mapM_option f l) as [ys'|]; simpl in H; [|discriminate].
    inversion H; subst. constructor; [exact Fx|apply IH; reflexivity].
Qed.

Lemma Forall2_in_l {A B} (P : A -> B -> Prop) l1 l2 x :
  Forall2 P l1 l2 -> In x l1 -> exists y, In y l2 /\ P x y.
Proof.
  intros H; induction H as [|a b l1 l2 Hab H IH]; simpl; [intros []|].
  intros [<-|Hx]; [exists b; split; [left; reflexivity|exact Hab]|].
  destruct (IH Hx) as [y [Hy Hp]]. exists y; split; [right|]; assumption.
Qed.

Lemma Forall2_in_r {A B} (P : A -> B -> Prop) l1 l2 y :
  Forall2 P l1 l2 -> In y l2 -> exists x, In x l1 /\ P x y.
Proof.
  intros H; induction H as [|a b l1 l2 Hab H IH]; simpl; [intros []|].
  intros [<-|Hy]; [exists a; split; [left; reflexivity|exact Hab]|].
  destruct (IH Hy) as [x [Hx Hp]]. exists x; split; [right|]; assumption.
Qed.

Lemma ForallOrdPairs_Forall2 {A B} (P : A -> B -> Prop) (R : A -> A -> Prop) (R' : B -> B -> Prop) l1 l2 :
  Forall2 P l1 l2 -> ForallOrdPairs R l1 ->
  (forall a b x y, P a x -> P b y -> R a b -> R' x y) -> ForallOrdPairs R' l2.
Proof.
  intros H; induction H as [|a x l1 l2 Hax H IH]; intros Hf Ht; [constructor|].
  inversion Hf as [|? ? Ha Hl]; subst. constructor; [|apply IH; assumption].
  apply Forall_forall. intros y Hy.
  destruct (Forall2_in_r _ _ _ y H Hy) as [b [Hb Hby]].
  rewrite Forall_forall in Ha. exact (Ht a b x y Hax Hby (Ha b Hb)).
Qed.

Lemma col_index_filter_rows f p n : col_index (filter_rows f p) n = col_index f n.
Proof. reflexivity. Qed.

Lemma select_sample_inv (df out : frame) :
  select_sample df = Some out ->
  let E := filter (eligible df) (rows df) in
  exists km kv ks, col_index df "mid" = Some km /\ col_index df "Visit" = Some kv /\
    columns out = columns df /\
    sorted_keys (map (fun r => nth km r PNaN) E) = Some ks /\
    mapM_option (fun k => first_min kv (filter (fun r => key_eqb k (nth km r PNaN)) E)) ks
      = Some (rows out).
Proof.
  unfold select_sample, drop_excluded, keep_diagnoses, keep_age, first_visits.
  destruct (col_index df "excluded") as [kx|] eqn:Ex; [|discriminate].
  rewrite !col_index_filter_rows.
  destruct (col_index df "diagnosis_baseline_variable") as [kd|] eqn:Ed; [|discriminate].
  rewrite !col_index_filter_rows.
  destruct (col_index df "age") as [ka|] eqn:Ea; [|discriminate].
  destruct (existsb _ _); [discriminate|].
  rewrite !col_index_filter_rows.
  destruct (col_index df "mid") as [km|] eqn:Em; [|discriminate].
  destruct (col_index df "Visit") as [kv|] eqn:Ev; [|discriminate].
  cbn [filter_rows rows columns].
  rewrite !filter_filter_andb.
  rewrite (filter_ext_eq _ (eligible df))
    by (intros r; unfold eligible, val_at; rewrite Ex, Ed, Ea, andb_assoc; reflexivity).
  intros H.
  destruct (sorted_keys _) as [ks|] eqn:S; [|discriminate].
  destruct (mapM_option _ ks) as [rs|] eqn:M; [|discriminate].
  inversion H; subst; clear H.
  exists km, kv, ks. repeat split; simpl; auto.
Qed.

Lemma select_sample_spec (df out : frame) :
  select_sample df = Some out ->
  columns out = columns df /\
  exists km kv, col_index df "mid" = Some km /\ col_index df "Visit" = Some kv /\
  (forall r, In r (rows out) ->
     In r (rows df) /\ eligible df r = true /\ notna (nth km r PNaN) = true /\
     exists v, nth kv r PNaN = PNum v /\
       forall r', In r' (rows df) -> eligible df r' = true ->
         key_eqb (nth km r PNaN) (nth km r' PNaN) = true ->
         forall v', nth kv r' PNaN = PNum v' -> v <= v') /\
  (forall r', In r' (rows df) -> eligible df r' = true -> notna (nth km r' PNaN) = true ->
     exists r, In r (rows out) /\ key_eqb (nth km r PNaN) (nth km r' PNaN) = true) /\
  ForallOrdPairs (fun a b => key_eqb (nth km a PNaN) (nth km b PNaN) = false) (rows out).
Proof.
  intros H. destruct (select_sample_inv df out H) as [km [kv [ks [Hm [Hv [Hc [Hs HM]]]]]]].
  set (E := filter (eligible df) (rows df)) in *.
  apply mapM_option_Forall2 in HM.
  destruct (sorted_keys_spec _ _ Hs) as [Hks [Hcov Hpairs]].
  split; [exact Hc|]. exists km, kv. split; [exact Hm|]. split; [exact Hv|].
  split; [|split].
  - intros r Hr. destruct (Forall2_in_r _ _ _ r HM Hr) as [k [Hk Hkr]].
    destruct (first_min_spec _ _ _ Hkr) as [Hin [v [Hvr Hmin]]].
    apply filter_In in Hin as [HinE Hkm]. apply filter_In in HinE as [Hin Hel].
    split; [exact Hin|]. split; [exact Hel|].
    split; [exact (proj2 (key_eqb_notna _ _ Hkm))|].
    exists v; split; [exact Hvr|]. intros r' Hr' Hel' Hkey v' Hv'.
    apply (Hmin r'); [|exact Hv'].
    apply filter_In; split; [apply filter_In; split; assumption|].
    eapply key_eqb_trans; eassumption.
  - intros r' Hr' Hel' Hn.
    destruct (Hcov (nth km r' PNaN)) as [k [Hk Hkr']];
      [apply (in_map (fun r => nth km r PNaN)); apply filter_In; split; assumption|exact Hn|].
    destruct (Forall2_in_l _ _ _ k HM Hk) as [r [Hr Hkr]].
    destruct (first_min_spec _ _ _ Hkr) as [Hin _].
    apply filter_In in Hin as [_ Hkm].
    exists r; split; [exact Hr|]. rewrite key_eqb_sym in Hkm. eapply key_eqb_trans; eassumption.
  - apply (ForallOrdPairs_Forall2 _ _ _ _ _ HM Hpairs).
    intros a b x y Hax Hby Hab.
    destruct (first_min_spec _ _ _ Hax) as [Hx _]. apply filter_In in Hx as [_ Hx].
    destruct (first_min_spec _ _ _ Hby) as [Hy _]. apply filter_In in Hy as [_ Hy].
    destruct (key_eqb (nth km x PNaN) (nth km y PNaN)) eqn:Exy; [|reflexivity].
    rewrite <- Hab. symmetry.
    rewrite key_eqb_sym in Hy. apply (key_eqb_trans _ (nth km x PNaN)); [exact Hx|].
    eapply key_eqb_trans; eassumption.
Qed.

Lemma val_at_index f n k r : col_index f n = Some k -> val_at f n r = nth k r PNaN.
Proof. unfold val_at; intros ->; reflexivity. Qed.







(** A participant none of whose rows passing the filters has a visit
    makes [idxmin] raise: the selection fails. *)
Theorem participant_without_visit_fails (df : frame) :
  (exists r, In r (rows df) /\ eligible df r = true /\ notna (val_at df "mid" r) = true /\
     forall r', In r' (rows df) -> eligible df r' = true ->
       key_eqb (val_at df "mid" r) (val_at df "mid" r') = true -> val_at df "Visit" r' = PNaN) ->
  select_sample df = None.
Proof.
  intros [r [Hr [Hel [Hn Hnov]]]].
  destruct (select_sample df) as [out|] eqn:H; [exfalso|reflexivity].
  destruct (select_sample_spec df out H) as [_ [km [kv [Hm [Hv [Hrows [Hcov _]]]]]]].
  rewrite (val_at_index _ _ _ r Hm) in Hn.
  destruct (Hcov r Hr Hel Hn) as [r0 [Hr0 Hkey]].
  destruct (Hrows r0 Hr0) as [Hin0 [Hel0 [_ [v [Hv0 _]]]]].
  assert (Hk : key_eqb (val_at df "mid" r) (val_at df "mid" r0) = true).
  { rewrite (val_at_index _ _ _ r Hm), (val_at_index _ _ _ r0 Hm), key_eqb_sym. exact Hkey. }
  pose proof (Hnov r0 Hin0 Hel0 Hk) as Hnan.
  rewrite (val_at_index _ _ _ r0 Hv) in Hnan. congruence.
Qed.

(** A text age in a row that passes the [excluded] and diagnosis filters
    makes [df['age'] > 50] raise: the selection fails. *)
Theorem text_age_fails (df : frame) (r : list pyval) :
  In r (rows df) ->
  negb (is_one (val_at df "excluded" r)) = true ->
  isin_str (val_at df "diagnosis_baseline_variable" r) diagnoses = true ->
  is_str (val_at df "age" r) = true ->
  select_sample df = None.
Proof.
  intros Hr Hx Hd Ha. unfold select_sample, drop_excluded.
  destruct (col_index df "excluded") as [k1|] eqn:E1; [|reflexivity].
  unfold keep_diagnoses; rewrite col_index_filter_rows.
  destruct (col_index df "diagnosis_baseline_variable") as [k2|] eqn:E2; [|reflexivity].
  unfold keep_age; rewrite !col_index_filter_rows.
  destruct (col_index df "age") as [k3|] eqn:E3; [|reflexivity].
  unfold val_at in Hx, Hd, Ha. rewrite E1 in Hx. rewrite E2 in Hd. rewrite E3 in Ha.
  rewrite (proj2 (existsb_exists _ _)); [reflexivity|].
  exists r. split; [|exact Ha].
  unfold filter_rows; cbn [rows]. apply filter_In; split; [|exact Hd].
  apply filter_In; split; [exact Hr|exact Hx].
Qed.

(** *** Examples *)

Definition bf2_cols : list string :=
  ["mid"; "Visit"; "excluded"; "diagnosis_baseline_variable"; "age"]%string.










Definition novisit_row : list pyval := [PStr "m1"; PNaN; PNaN; PStr "AD"; PNum 70]%string.

Definition novisit_ex : frame := mk_frame bf2_cols [novisit_row].

Lemma participant_without_visit_fails_witness : select_sample novisit_ex = None.
Proof.
  apply participant_without_visit_fails. exists novisit_row.
  split; [left; reflexivity|]. split; [vm_compute; reflexivity|].
  split; [vm_compute; reflexivity|].
  intros r' [<-|[]] _ _. vm_compute. reflexivity.
Defined.

Definition text_age_row : list pyval := [PStr "m1"; PNum 1; PNaN; PStr "AD"; PStr "70"]%string.

Definition text_age_ex : frame :=
  mk_frame bf2_cols [[PStr "m0"; PNum 1; PNum 0; PStr "AD"; PNum 71]; text_age_row]%string.

Lemma text_age_fails_witness : select_sample text_age_ex = None.
Proof.
  apply (text_age_fails text_age_ex text_age_row).
  - right; left; reflexivity.
  - vm_compute; reflexivity.
  - vm_compute; reflexivity.
  - vm_compute; reflexivity.
Defined.

End SampleSelectionProofs.
